(** * aboutsettings.cpp: release-file parser and disk-usage model

    A shallow embedding of [parseReleaseFile] and of the [AboutSettings]
    accessors [diskUsageModel], [serial], [softwareVersion] and
    [adaptationVersion] of src/aboutsettings.cpp, together with the Qt value
    types they are written with ([QChar], [QString], [QMap], [QRegExp]).
    The definitions come first, the lemmas about them after, and the claims
    of the specification, C1 to C10, last.

    Qt itself is not part of the repository: its operations are modelled after
    the Qt 5 documentation, each with the sentence of the documentation it
    follows. *)

From Stdlib Require Import ZArith NArith Bool Lia String Ascii List
  Permutation.
Import ListNotations.

Local Open Scope Z_scope.

(** ** Results of code that can violate a precondition

    [QString::at] requires a valid index ("The position must be a valid index
    position in the string (i.e., 0 <= position < size())") and checks it with
    an assertion.  A call outside that range has no defined result; the model
    makes it an explicit outcome. *)

Inductive outcome (A : Type) : Type :=
| Ok (a : A)
| AssertFailed.

Arguments Ok {A} a.
Arguments AssertFailed {A}.

Definition bind {A B : Type} (r : outcome A) (k : A -> outcome B) : outcome B :=
  match r with
  | Ok a => k a
  | AssertFailed => AssertFailed
  end.

Notation "x <- r ;; k" := (bind r (fun x => k))
  (at level 61, r at next level, right associativity).

(** ** QChar: a UTF-16 code unit *)

Definition QChar := N.

Definition ch (a : ascii) : QChar := N_of_ascii a.

Module QChar.

Definition eqb (a b : QChar) : bool := N.eqb a b.

Definition inRange (lo hi : ascii) (c : QChar) : bool :=
  (N.leb (ch lo) c && N.leb c (ch hi))%bool.

(** [QChar::isSpace]: "true if the character is a separator character
    (Separator_* categories or certain code points from Other_Control
    category)": U+0009..U+000D, U+0020, U+0085, U+00A0 and the code points
    of the categories Zs, Zl and Zp. *)
Definition isSpace (c : QChar) : bool :=
  (N.eqb c 32
   || (N.leb 9 c && N.leb c 13)
   || N.eqb c 133 || N.eqb c 160
   || N.eqb c 5760
   || (N.leb 8192 c && N.leb c 8202)
   || N.eqb c 8232 || N.eqb c 8233 || N.eqb c 8239
   || N.eqb c 8287 || N.eqb c 12288)%bool.

End QChar.

(** ** QString: a sequence of code units *)

Definition QString := list QChar.

(** [QString::fromLatin1] and the conversion of a C string literal: one code
    unit per byte. *)
Definition fromLatin1 (s : string) : QString :=
  map N_of_ascii (list_ascii_of_string s).

Abbreviation QS := fromLatin1.

Module QString.

Definition size (s : QString) : Z := Z.of_nat (length s).

Fixpoint eqb (a b : QString) : bool :=
  match a, b with
  | [], [] => true
  | x :: a', y :: b' => (QChar.eqb x y && eqb a' b')%bool
  | _, _ => false
  end.

(** [operator<] on QString compares code units lexicographically. *)
Fixpoint compare (a b : QString) : comparison :=
  match a, b with
  | [], [] => Eq
  | [], _ :: _ => Lt
  | _ :: _, [] => Gt
  | x :: a', y :: b' =>
      match N.compare x y with
      | Eq => compare a' b'
      | Lt => Lt
      | Gt => Gt
      end
  end.

(** [QString::at(i)]: the character at index [i]; the index must be valid. *)
Definition at_ (s : QString) (i : Z) : outcome QChar :=
  if ((0 <=? i) && (i <? size s))%bool
  then match nth_error s (Z.to_nat i) with
       | Some c => Ok c
       | None => AssertFailed
       end
  else AssertFailed.

Definition startsWith (s : QString) (c : QChar) : bool :=
  match s with
  | [] => false
  | x :: _ => QChar.eqb x c
  end.

(** [QString::mid(position, n)]: "Returns a string that contains n characters
    of this string, starting at the specified position index.  Returns a null
    string if the position index exceeds the length of the string.  If there
    are less than n characters available in the string starting at the given
    position, or if n is -1 (default), the function returns all characters
    that are available from the specified position."  A negative [n] stands
    for all characters, and a negative [position] shortens the count from
    index 0; a null string and an empty string are both []. *)
Definition mid (s : QString) (position n : Z) : QString :=
  let originalLength := size s in
  if originalLength <? position then []
  else if position <? 0 then
    if ((n <? 0) || (originalLength <=? n + position))%bool then s
    else if n + position <=? 0 then []
    else firstn (Z.to_nat (n + position)) s
  else
    let n := if ((n <? 0) || (originalLength - position <? n))%bool
             then originalLength - position else n in
    firstn (Z.to_nat n) (skipn (Z.to_nat position) s).

Fixpoint dropSpaces (s : QString) : QString :=
  match s with
  | [] => []
  | c :: s' => if QChar.isSpace c then dropSpaces s' else s
  end.

(** [QString::trimmed]: "Returns a string that has whitespace removed from
    the start and the end.  Whitespace means any character for which
    QChar::isSpace() returns true." *)
Definition trimmed (s : QString) : QString :=
  rev (dropSpaces (rev (dropSpaces s))).

(** [QString::split(sep)] with [KeepEmptyParts]: the fields between the
    occurrences of [sep]; a string without [sep] is one field. *)
Fixpoint split (sep : QChar) (s : QString) : list QString :=
  match s with
  | [] => [[]]
  | c :: s' =>
      if QChar.eqb c sep then [] :: split sep s'
      else match split sep s' with
           | [] => [[c]]
           | f :: fs => (c :: f) :: fs
           end
  end.

Fixpoint join (sep : QChar) (fields : list QString) : QString :=
  match fields with
  | [] => []
  | [f] => f
  | f :: fs => f ++ sep :: join sep fs
  end.

(** [QString::section(sep, start, end)] with the default flags: "This
    string is treated as a sequence of fields separated by the character,
    sep.  The returned string consists of the fields from position start to
    position end inclusive.  If end is not specified, all fields from
    position start to the end of the string are included.  Fields are
    numbered 0, 1, 2, etc., counting from the left, and -1, -2, etc.,
    counting from right to left." *)
Definition section (s : QString) (sep : QChar) (start end_ : Z) : QString :=
  let sections := split sep s in
  let sectionsSize := Z.of_nat (length sections) in
  let start := if start <? 0 then start + sectionsSize else start in
  let end_ := if end_ <? 0 then end_ + sectionsSize else end_ in
  if ((sectionsSize <=? start) || (end_ <? 0) || (end_ <? start))%bool then []
  else
    let first := Z.max 0 start in
    join sep (firstn (Z.to_nat (end_ - first + 1))
                     (skipn (Z.to_nat first) sections)).

End QString.

(** ** QRegExp: regular expressions over code units

    Qt's matcher is not part of the repository; [exactMatch] is the textbook
    matcher by derivatives, and [Lang] below gives the patterns their
    meaning.  A character class is the list of its ranges, as it is written
    between the brackets. *)

Module QRegExp.

Inductive re : Type :=
| Void
| Eps
| Class (ranges : list (QChar * QChar))
| Cat (r1 r2 : re)
| Alt (r1 r2 : re)
| Star (r : re).

(** [r+] *)
Definition Plus (r : re) : re := Cat r (Star r).

Definition inClass (ranges : list (QChar * QChar)) (c : QChar) : bool :=
  existsb (fun '(lo, hi) => (N.leb lo c && N.leb c hi)%bool) ranges.

Fixpoint nullable (r : re) : bool :=
  match r with
  | Void => false
  | Eps => true
  | Class _ => false
  | Cat r1 r2 => (nullable r1 && nullable r2)%bool
  | Alt r1 r2 => (nullable r1 || nullable r2)%bool
  | Star _ => true
  end.

Fixpoint deriv (c : QChar) (r : re) : re :=
  match r with
  | Void => Void
  | Eps => Void
  | Class ranges => if inClass ranges c then Eps else Void
  | Cat r1 r2 =>
      if nullable r1 then Alt (Cat (deriv c r1) r2) (deriv c r2)
      else Cat (deriv c r1) r2
  | Alt r1 r2 => Alt (deriv c r1) (deriv c r2)
  | Star r1 => Cat (deriv c r1) (Star r1)
  end.

(** [QRegExp::exactMatch(str)]: "Returns true if str is matched exactly by
    this regular expression; otherwise returns false." *)
Fixpoint exactMatch (r : re) (str : QString) : bool :=
  match str with
  | [] => nullable r
  | c :: str' => exactMatch (deriv c r) str'
  end.

(** The strings a pattern denotes. *)
Inductive Lang : re -> QString -> Prop :=
| LEps : Lang Eps []
| LClass ranges c : inClass ranges c = true -> Lang (Class ranges) [c]
| LCat r1 r2 s1 s2 : Lang r1 s1 -> Lang r2 s2 -> Lang (Cat r1 r2) (s1 ++ s2)
| LAltL r1 r2 s : Lang r1 s -> Lang (Alt r1 r2) s
| LAltR r1 r2 s : Lang r2 s -> Lang (Alt r1 r2) s
| LStarNil r : Lang (Star r) []
| LStarApp r s1 s2 : Lang r s1 -> Lang (Star r) s2 -> Lang (Star r) (s1 ++ s2).

End QRegExp.

(** ** QMap<QString, QString>

    "QMap ... stores its data in key order": the map is the list of its
    entries in ascending key order, which is the order [keys()] and iteration
    deliver them in. *)

Module QMap.

Definition t : Type := list (QString * QString).

Definition empty : t := [].

Fixpoint find (m : t) (key : QString) : option QString :=
  match m with
  | [] => None
  | (k, v) :: m' => if QString.eqb key k then Some v else find m' key
  end.

(** [QMap::insert(key, value)]: "If there is already an item with the key
    key, that item's value is replaced with value." *)
Fixpoint insert (key value : QString) (m : t) : t :=
  match m with
  | [] => [(key, value)]
  | (k, v) :: m' =>
      match QString.compare key k with
      | Lt => (key, value) :: m
      | Eq => (key, value) :: m'
      | Gt => (k, v) :: insert key value m'
      end
  end.

Definition contains (m : t) (key : QString) : bool :=
  match find m key with
  | Some _ => true
  | None => false
  end.

(** [QMap::value(key)]: "If the map contains no item with key key, the
    function returns a default-constructed value." *)
Definition value (m : t) (key : QString) : QString :=
  match find m key with
  | Some v => v
  | None => []
  end.

(** The non-const [operator[]]: "If the map contains no item with key key,
    the function inserts a default-constructed value into the map with key
    key, and returns a reference to it."  The map after the call and the
    value referred to. *)
Definition index (m : t) (key : QString) : t * QString :=
  match find m key with
  | Some v => (m, v)
  | None => (insert key [] m, [])
  end.

(** [QMap::keys()]: "a list containing all the keys in the map in ascending
    order." *)
Definition keys (m : t) : list QString := map fst m.

End QMap.

(** ** Files

    What the code can observe of a file: it is missing, it exists but cannot
    be opened, or it delivers [text], the characters decoded from its UTF-8
    content. *)

Inductive FileState : Type :=
| Missing
| Unreadable
| Readable (text : QString).

Definition FileSystem : Type := QString -> FileState.

Definition newline : QChar := 10%N.
Definition carriageReturn : QChar := 13%N.
Definition singleQuote : QChar := 39%N.
Definition doubleQuote : QChar := 34%N.
Definition backslash : QChar := 92%N.

(** [QTextStream::readLine]: "The returned line has no trailing end-of-line
    characters".  [line] holds the characters of the current line, last one
    first. *)
Definition endOfLine (line : QString) : QString :=
  match line with
  | c :: line' => if QChar.eqb c carriageReturn then rev line' else rev line
  | [] => []
  end.

(** The lines that [while (!in.atEnd()) in.readLine()] reads. *)
Fixpoint readLinesFrom (line text : QString) : list QString :=
  match text with
  | [] => match line with
          | [] => []
          | _ :: _ => [rev line]
          end
  | c :: text' =>
      if QChar.eqb c newline then endOfLine line :: readLinesFrom [] text'
      else readLinesFrom (c :: line) text'
  end.

Definition readLines (text : QString) : list QString := readLinesFrom [] text.

(** ** parseReleaseFile *)

Import QRegExp.

(** ["[a-zA-Z_]+[a-zA-Z0-9_]*"] *)
Definition keyPattern : re :=
  Cat (Plus (Class [(ch "a", ch "z"); (ch "A", ch "Z"); (ch "_", ch "_")]))
      (Star (Class [(ch "a", ch "z"); (ch "A", ch "Z"); (ch "0", ch "9");
                    (ch "_", ch "_")])).

(** The [.] of a QRegularExpression: "matches any character except newline". *)
Definition dot (c : QChar) : bool := negb (QChar.eqb c newline).

(** [value.replace(QRegularExpression("\\\\(.)"), "\\1")]: every match of a
    backslash followed by one character, found from left to right and each
    search starting after the previous match, is replaced by its capture. *)
Fixpoint unescape (value : QString) : QString :=
  match value with
  | [] => []
  | c :: value1 =>
      match value1 with
      | [] => [c]
      | d :: value2 =>
          if (QChar.eqb c backslash && dot d)%bool then d :: unescape value2
          else c :: unescape value1
      end
  end.

(** What the loop body does with one line: one of the three [continue]s, or
    the assignment [result[key] = value]. *)
Inductive LineResult : Type :=
| Comment
| InvalidKey
| QuotingError
| Assign (key value : QString).

(** Lines 94 to 102: the quote check and the removal of the quotes; [None] is
    the quoting error. *)
Definition unquote (value : QString) : outcome (option QString) :=
  first <- QString.at_ value 0 ;;
  if (QChar.eqb first singleQuote || QChar.eqb first doubleQuote)%bool then
    last <- QString.at_ value (QString.size value - 1) ;;
    if negb (QChar.eqb first last) then Ok None
    else Ok (Some (QString.mid value 1 (QString.size value - 2)))
  else Ok (Some value).

Definition parseLine (line : QString) : outcome LineResult :=
  if QString.startsWith line (ch "#") then Ok Comment
  else
    let key := QString.section line (ch "=") 0 0 in
    let value := QString.section line (ch "=") 1 (-1) in
    let value := QString.trimmed value in
    if negb (exactMatch keyPattern key) then Ok InvalidKey
    else
      unquoted <- unquote value ;;
      match unquoted with
      | None => Ok QuotingError
      | Some value => Ok (Assign key (unescape value))
      end.

Fixpoint parseLines (lines : list QString) (result : QMap.t)
  : outcome QMap.t :=
  match lines with
  | [] => Ok result
  | line :: lines' =>
      r <- parseLine line ;;
      match r with
      | Assign key value => parseLines lines' (QMap.insert key value result)
      | _ => parseLines lines' result
      end
  end.

Definition parseReleaseFile (fs : FileSystem) (filename : QString)
  : outcome QMap.t :=
  match fs filename with
  | Readable text => parseLines (readLines text) QMap.empty
  | _ => Ok QMap.empty
  end.

(** ** AboutSettings *)

(** [struct mntent], the two fields the code reads. *)
Record mntent : Type := { mnt_fsname : string; mnt_dir : string }.

(** [m_sysinfo], the two queries the code makes. *)
Record QStorageInfo : Type :=
  { availableDiskSpace : QString -> Z;
    totalDiskSpace : QString -> Z }.

(** One [QVariantMap row] of the model. *)
Record Row : Type :=
  { storageType : QString;
    path : QString;
    available : Z;
    total : Z }.

(** Optional mountpoints that disk usage is reported for. *)
Definition candidates : list QString := [QS "/home"].

(** [QStringList::contains] *)
Definition contains (l : list QString) (s : QString) : bool :=
  existsb (QString.eqb s) l.

(** The [getmntent_r] loop: [devices[mnt_dir] = mnt_fsname] for every entry
    of the mount table, in its order. *)
Fixpoint readMounts (mtab : list mntent) (devices : QMap.t) : QMap.t :=
  match mtab with
  | [] => devices
  | entry :: mtab' =>
      readMounts mtab'
        (QMap.insert (fromLatin1 (mnt_dir entry))
                     (fromLatin1 (mnt_fsname entry)) devices)
  end.

(** The loop over [devices.keys()].  [foreach] iterates over a copy of the key
    list, while [devices[...]] can insert into [devices]: the map is threaded
    through the loop. *)
Fixpoint addMountpoints (keys : list QString) (devices : QMap.t)
  (paths : list QString) : QMap.t * list QString :=
  match keys with
  | [] => (devices, paths)
  | mountpoint :: keys' =>
      if contains candidates mountpoint then
        let '(devices, device) := QMap.index devices mountpoint in
        let '(devices, root) := QMap.index devices (QS "/") in
        if negb (QString.eqb device root)
        then addMountpoints keys' devices (paths ++ [mountpoint])
        else addMountpoints keys' devices paths
      else addMountpoints keys' devices paths
  end.

(** The map [devices] after the mount table is read. *)
Definition mountDevices (mtab : list mntent) : QMap.t :=
  readMounts mtab QMap.empty.

(** The list [paths] when the second loop starts. *)
Definition workingPaths (mtab : list mntent) : list QString :=
  let devices := mountDevices mtab in
  snd (addMountpoints (QMap.keys devices) devices [QS "/"]).

Definition storageTypeOf (paths : list QString) (path : QString) : QString :=
  if (length paths =? 1)%nat then QS "mass"
  else if QString.eqb path (QS "/") then QS "system"
  else QS "user".

Definition diskUsageModel (m_sysinfo : QStorageInfo) (mtab : list mntent)
  : list Row :=
  let paths := workingPaths mtab in
  map (fun path =>
         {| storageType := storageTypeOf paths path;
            path := path;
            available := availableDiskSpace m_sysinfo path;
            total := totalDiskSpace m_sysinfo path |})
      paths.

(** [serial_txt.open] is not checked: [readAll] on a device that is not open
    returns no bytes. *)
Definition serial (fs : FileSystem) : QString :=
  match fs (QS "/config/serial/serial.txt") with
  | Missing => []
  | Unreadable => QString.trimmed []
  | Readable text => QString.trimmed text
  end.

Definition softwareVersion (fs : FileSystem) : outcome QString :=
  release <- parseReleaseFile fs (QS "/etc/os-release") ;;
  Ok (snd (QMap.index release (QS "VERSION"))).

Definition adaptationVersion (fs : FileSystem) : outcome QString :=
  release <- parseReleaseFile fs (QS "/etc/hw-release") ;;
  Ok (snd (QMap.index release (QS "VERSION_ID"))).

(** ** The words of the specification *)

(** The identifier-syntax rule: "[a-zA-Z_][a-zA-Z0-9_]* as a whole match". *)
Definition identifierPattern : re :=
  Cat (Class [(ch "a", ch "z"); (ch "A", ch "Z"); (ch "_", ch "_")])
      (Star (Class [(ch "a", ch "z"); (ch "A", ch "Z"); (ch "0", ch "9");
                    (ch "_", ch "_")])).

Definition identifierSyntax (key : QString) : bool :=
  exactMatch identifierPattern key.

(** The same rule, read character by character: a first character of
    [[A-Za-z_]], then characters of [[A-Za-z0-9_]] only. *)
Definition identStart (c : QChar) : bool :=
  (QChar.inRange "a" "z" c || QChar.inRange "A" "Z" c || QChar.eqb c (ch "_"))%bool.

Definition identChar (c : QChar) : bool :=
  (identStart c || QChar.inRange "0" "9" c)%bool.

Definition wellFormedKey (key : QString) : bool :=
  match key with
  | [] => false
  | c :: rest => (identStart c && forallb identChar rest)%bool
  end.

(** "Its first character is a single- or double-quote." *)
Definition isQuote (c : QChar) : bool :=
  (QChar.eqb c singleQuote || QChar.eqb c doubleQuote)%bool.

(** "Trim trailing whitespace from the raw value." *)
Definition trimTrailing (s : QString) : QString :=
  rev (QString.dropSpaces (rev s)).

(** "Every occurrence of a backslash followed by exactly one character is
    replaced by that single character, applied once, left-to-right,
    non-overlapping": reading the value from the left, a backslash and the
    character after it give that character, any other character gives
    itself, and a backslash with nothing after it stays. *)
Inductive Unescaped : QString -> QString -> Prop :=
| UnNil : Unescaped [] []
| UnLast : Unescaped [backslash] [backslash]
| UnEscape X v w : Unescaped v w -> Unescaped (backslash :: X :: v) (X :: w)
| UnPlain c v w : c <> backslash -> Unescaped v w -> Unescaped (c :: v) (c :: w).

(** A candidate "appears as a key in the mount table AND its device source
    differs from the device source of /". *)
Definition eligible (devices : QMap.t) (candidate : QString) : Prop :=
  QMap.contains devices candidate = true /\
  QMap.value devices candidate <> QMap.value devices (QS "/").

(** The test of the first loop of [diskUsageModel], on the values that
    [value()] reads from the map. *)
Definition reported (devices : QMap.t) (mountpoint : QString) : bool :=
  (contains candidates mountpoint
   && negb (QString.eqb (QMap.value devices mountpoint)
                        (QMap.value devices (QS "/"))))%bool.

(** The device source of a mountpoint as the mount table gives it, "the last
    entry seen for that mountpoint": the [mnt_fsname] of the last entry whose
    [mnt_dir] is the mountpoint, [current] when the table has none. *)
Fixpoint lastDevice (mtab : list mntent) (mountpoint : QString)
  (current : option QString) : option QString :=
  match mtab with
  | [] => current
  | entry :: mtab' =>
      lastDevice mtab' mountpoint
        (if QString.eqb (fromLatin1 (mnt_dir entry)) mountpoint
         then Some (fromLatin1 (mnt_fsname entry))
         else current)
  end.

Definition deviceSource (mtab : list mntent) (mountpoint : QString)
  : option QString :=
  lastDevice mtab mountpoint None.

(** The device source of the root, the empty string when the table has no
    entry for it. *)
Definition rootSource (mtab : list mntent) : QString :=
  match deviceSource mtab (QS "/") with
  | Some device => device
  | None => []
  end.

(** The mountpoints of the mount table, in its order. *)
Definition mountpoints (mtab : list mntent) : list QString :=
  map (fun entry => fromLatin1 (mnt_dir entry)) mtab.

(** The columns [storageType] and [path] of the model. *)
Definition typesAndPaths (rows : list Row) : list (QString * QString) :=
  map (fun row => (storageType row, path row)) rows.

(** The invariant of a [QMap]: its keys are in strictly ascending order. *)
Inductive Ascending : list QString -> Prop :=
| AscNil : Ascending []
| AscOne k : Ascending [k]
| AscCons k1 k2 ks :
    QString.compare k1 k2 = Lt -> Ascending (k2 :: ks) ->
    Ascending (k1 :: k2 :: ks).

(** A list in the order of another: [l1] is obtained from [l2] by leaving
    elements out. *)
Inductive Subsequence {A : Type} : list A -> list A -> Prop :=
| SubNil : Subsequence [] []
| SubSkip x l1 l2 : Subsequence l1 l2 -> Subsequence l1 (x :: l2)
| SubKeep x l1 l2 : Subsequence l1 l2 -> Subsequence (x :: l1) (x :: l2).

(** A file system holding one release file. *)
Definition oneFile (name text : QString) : FileSystem :=
  fun filename => if QString.eqb filename name then Readable text else Missing.

(** The file of the concrete scenario: a comment, a quoted version, a key
    with a dash and a key with an empty value, one per line. *)
Definition scenario : QString :=
  QS "#comment" ++ [newline]
  ++ QS "VERSION=" ++ [doubleQuote] ++ QS "1.2.3" ++ [doubleQuote; newline]
  ++ QS "BAD-KEY=x" ++ [newline]
  ++ QS "EMPTY=" ++ [newline].

(** The same file without its last line. *)
Definition scenarioWithoutEmpty : QString :=
  QS "#comment" ++ [newline]
  ++ QS "VERSION=" ++ [doubleQuote] ++ QS "1.2.3" ++ [doubleQuote; newline]
  ++ QS "BAD-KEY=x" ++ [newline].

(** Mount tables: the root alone; the root and [/home] on two devices; both
    on one device; [/home] without an entry for the root. *)
Definition rootOnly : list mntent :=
  [ {| mnt_fsname := "/dev/mmcblk0p1"; mnt_dir := "/" |} ].

Definition rootAndHome : list mntent :=
  [ {| mnt_fsname := "/dev/mmcblk0p1"; mnt_dir := "/" |};
    {| mnt_fsname := "/dev/mmcblk0p2"; mnt_dir := "/home" |} ].

Definition homeOnRoot : list mntent :=
  [ {| mnt_fsname := "/dev/mmcblk0p1"; mnt_dir := "/" |};
    {| mnt_fsname := "/dev/mmcblk0p1"; mnt_dir := "/home" |} ].


(** A storage that reports 8 GB, half of it free, for every path. *)
Definition storage8G : QStorageInfo :=
  {| availableDiskSpace := fun _ => 4000000000;
     totalDiskSpace := fun _ => 8000000000 |}.

(** ** The accessors for the root file system, and notions for the
    properties beyond the claims *)

Module AboutSettings.

(** [AboutSettings::totalDiskSpace] *)
Definition totalDiskSpace (m_sysinfo : QStorageInfo) : Z :=
  totalDiskSpace m_sysinfo (QS "/").

(** [AboutSettings::availableDiskSpace] *)
Definition availableDiskSpace (m_sysinfo : QStorageInfo) : Z :=
  availableDiskSpace m_sysinfo (QS "/").

End AboutSettings.

(** The value that the lines assign to [key] last, [current] when none of
    them assigns it. *)
Fixpoint lastAssigned (key : QString) (lines : list QString)
  (current : option QString) : option QString :=
  match lines with
  | [] => current
  | line :: lines' =>
      match parseLine line with
      | Ok (Assign k v) =>
          if QString.eqb key k then lastAssigned key lines' (Some v)
          else lastAssigned key lines' current
      | _ => lastAssigned key lines' current
      end
  end.

(** A value written the way the comment on lines 104 to 106 asks for: "If
    double or single quotes or backslashes are to be used within variable
    assignments, they should be escaped with backslashes". *)
Definition escaped (value : QString) : QString :=
  flat_map (fun c => if (isQuote c || QChar.eqb c backslash)%bool
                     then [backslash; c] else [c]) value.

(** The entries of the mount table for the root and for [/home]. *)
Definition rootOrHome (entry : mntent) : bool :=
  (String.eqb (mnt_dir entry) "/" || String.eqb (mnt_dir entry) "/home")%bool.

(** A file system with the two release files. *)
Definition releaseFiles (os hw : QString) : FileSystem :=
  fun filename =>
    if QString.eqb filename (QS "/etc/os-release") then Readable os
    else if QString.eqb filename (QS "/etc/hw-release") then Readable hw
    else Missing.

(** Two release files for the examples. *)
Definition osRelease : QString :=
  QS "VERSION=1" ++ [newline] ++ QS "ID=x" ++ [newline] ++ QS "VERSION=2".

Definition hwRelease : QString := QS "NAME=y" ++ [newline].

(** * Properties *)

(** ** QString *)

Lemma QString_eqb_eq (a b : QString) : QString.eqb a b = true <-> a = b.
Proof.
  revert b; induction a as [|x a IH]; intros [|y b]; simpl;
    try (split; [discriminate | congruence ]); try tauto.
  unfold QChar.eqb. rewrite andb_true_iff, N.eqb_eq, IH.
  split; [intros [-> ->]; reflexivity | intros E; injection E; auto].
Qed.

Lemma QString_eqb_refl (a : QString) : QString.eqb a a = true.
Proof. apply QString_eqb_eq; reflexivity. Qed.

Lemma QString_eqb_neq (a b : QString) : QString.eqb a b = false <-> a <> b.
Proof.
  rewrite <- QString_eqb_eq. destruct (QString.eqb a b); split; congruence.
Qed.

Lemma QString_compare_eq (a b : QString) : QString.compare a b = Eq <-> a = b.
Proof.
  revert b; induction a as [|x a IH]; intros [|y b]; simpl;
    try (split; [discriminate | congruence ]); try tauto.
  destruct (N.compare_spec x y) as [-> | L | L].
  - rewrite IH. split; [congruence | intros E; injection E; auto].
  - split; [discriminate | intros E; injection E; lia].
  - split; [discriminate | intros E; injection E; lia].
Qed.

Lemma QString_compare_trans (a b c : QString) :
  QString.compare a b = Lt -> QString.compare b c = Lt ->
  QString.compare a c = Lt.
Proof.
  revert b c; induction a as [|x a IH]; intros [|y b] [|z c]; simpl;
    try congruence.
  destruct (N.compare_spec x y) as [-> | L1 | L1]; try discriminate.
  - destruct (N.compare_spec y z) as [-> | L2 | L2]; try discriminate; auto.
    apply IH.
  - destruct (N.compare_spec y z) as [-> | L2 | L2]; try discriminate; intros _ _.
    + destruct (N.compare_spec x z); auto; lia.
    + destruct (N.compare_spec x z); auto; lia.
Qed.

Lemma QString_compare_flip (a b : QString) :
  QString.compare a b = Gt -> QString.compare b a = Lt.
Proof.
  revert b; induction a as [|x a IH]; intros [|y b]; simpl; try congruence.
  destruct (N.compare_spec x y) as [-> | L | L]; try discriminate.
  - rewrite N.compare_refl. apply IH.
  - intros _. destruct (N.compare_spec y x); auto; lia.
Qed.

Lemma QString_compare_irrefl (a : QString) : QString.compare a a <> Lt.
Proof.
  assert (E : QString.compare a a = Eq) by (apply QString_compare_eq; reflexivity).
  congruence.
Qed.

Lemma fromLatin1_inj (s1 s2 : string) : fromLatin1 s1 = fromLatin1 s2 -> s1 = s2.
Proof.
  revert s2; induction s1 as [|a s1 IH]; intros [|b s2]; simpl;
    try discriminate; auto.
  unfold fromLatin1; simpl. intros E; injection E as E1 E2.
  f_equal; [ | apply IH; exact E2 ].
  rewrite <- (ascii_N_embedding a), <- (ascii_N_embedding b). congruence.
Qed.

(** ** QMap *)

Lemma QMap_find_insert_eq (m : QMap.t) (k v : QString) :
  QMap.find (QMap.insert k v m) k = Some v.
Proof.
  induction m as [|[k' v'] m IH]; simpl.
  - rewrite QString_eqb_refl; reflexivity.
  - destruct (QString.compare k k') eqn:C; simpl.
    + rewrite QString_eqb_refl; reflexivity.
    + rewrite QString_eqb_refl; reflexivity.
    + destruct (QString.eqb k k') eqn:E; [ | exact IH ].
      apply QString_eqb_eq in E; subst k'.
      assert (QString.compare k k = Eq) by (apply QString_compare_eq; reflexivity).
      congruence.
Qed.

Lemma QMap_find_insert_ne (m : QMap.t) (k v k' : QString) :
  k' <> k -> QMap.find (QMap.insert k v m) k' = QMap.find m k'.
Proof.
  intros N. apply QString_eqb_neq in N.
  induction m as [|[k0 v0] m IH]; simpl.
  - rewrite N; reflexivity.
  - destruct (QString.compare k k0) eqn:C; simpl.
    + apply QString_compare_eq in C; subst k0. rewrite N; reflexivity.
    + rewrite N; reflexivity.
    + rewrite IH; reflexivity.
Qed.

Lemma QMap_find_In (m : QMap.t) (k : QString) :
  QMap.find m k <> None <-> In k (QMap.keys m).
Proof.
  induction m as [|[k0 v0] m IH]; simpl; [ tauto | ].
  destruct (QString.eqb k k0) eqn:E.
  - apply QString_eqb_eq in E; subst. split; [auto | discriminate].
  - apply QString_eqb_neq in E. rewrite IH. split; [auto | intros [H|H]; congruence].
Qed.

Lemma QMap_contains_In (m : QMap.t) (k : QString) :
  QMap.contains m k = true <-> In k (QMap.keys m).
Proof.
  rewrite <- QMap_find_In. unfold QMap.contains.
  destruct (QMap.find m k); split; congruence.
Qed.

Lemma QMap_insert_keys_head (m : QMap.t) (k v k0 : QString) :
  QString.compare k0 k = Lt ->
  Ascending (k0 :: QMap.keys m) ->
  Ascending (k0 :: QMap.keys (QMap.insert k v m)).
Proof.
  revert k0; induction m as [|[k1 v1] m IH]; intros k0 L A; simpl.
  - constructor; [exact L | constructor].
  - inversion A as [ | | ? ? ? L1 A1]; subst.
    destruct (QString.compare k k1) eqn:C; simpl.
    + apply QString_compare_eq in C; subst k1. exact A.
    + constructor; [exact L | ]. constructor; [exact C | exact A1].
    + constructor; [exact L1 | ]. apply IH; [ | exact A1].
      apply QString_compare_flip; exact C.
Qed.

Lemma QMap_insert_ascending (m : QMap.t) (k v : QString) :
  Ascending (QMap.keys m) -> Ascending (QMap.keys (QMap.insert k v m)).
Proof.
  destruct m as [|[k1 v1] m]; intros A; simpl.
  - constructor.
  - destruct (QString.compare k k1) eqn:C; simpl.
    + apply QString_compare_eq in C; subst k1. exact A.
    + constructor; [exact C | exact A].
    + apply QMap_insert_keys_head; [ | exact A].
      apply QString_compare_flip; exact C.
Qed.

Lemma Ascending_lt_all (k : QString) (ks : list QString) :
  Ascending (k :: ks) -> forall k', In k' ks -> QString.compare k k' = Lt.
Proof.
  revert k; induction ks as [|k1 ks IH]; intros k A k' I; [ destruct I | ].
  inversion A as [ | | ? ? ? L A1]; subst.
  destruct I as [<- | I]; [exact L | ].
  apply (QString_compare_trans k k1 k'); [exact L | apply IH; assumption].
Qed.

Lemma Ascending_NoDup (ks : list QString) : Ascending ks -> NoDup ks.
Proof.
  induction ks as [|k ks IH]; intros A; constructor.
  - intros I. apply (QString_compare_irrefl k).
    apply (Ascending_lt_all k ks A k I).
  - apply IH. inversion A; subst; [constructor | assumption].
Qed.

(** ** QRegExp: the matcher decides the language of the pattern *)

Lemma nullable_Lang (r : re) : nullable r = true <-> Lang r [].
Proof.
  induction r as [ | | ranges | r1 IH1 r2 IH2 | r1 IH1 r2 IH2 | r IH]; simpl.
  - split; [discriminate | intros H; inversion H].
  - split; [constructor | reflexivity].
  - split; [discriminate | intros H; inversion H].
  - rewrite andb_true_iff, IH1, IH2. split.
    + intros [H1 H2]. apply (LCat r1 r2 [] [] H1 H2).
    + intros H. inversion H as [ | | ? ? s1 s2 H1 H2 | | | | ]; subst.
      match goal with E : _ ++ _ = [] |- _ => apply app_eq_nil in E as [-> ->] end.
      auto.
  - rewrite orb_true_iff, IH1, IH2. split.
    + intros [H | H]; [apply LAltL | apply LAltR]; exact H.
    + intros H. inversion H; subst; auto.
  - split; [constructor | reflexivity].
Qed.

Lemma Lang_Star_cons (r : re) (c : QChar) (s : QString) :
  Lang (Star r) (c :: s) ->
  exists s1 s2, s = s1 ++ s2 /\ Lang r (c :: s1) /\ Lang (Star r) s2.
Proof.
  intros H. remember (Star r) as r0 eqn:Er. remember (c :: s) as s0 eqn:Es.
  revert s Es.
  induction H as [ | | | | | | r' s1 s2 H1 _ H2 IH2]; intros t Es;
    try discriminate.
  injection Er as ->.
  destruct s1 as [|c1 s1]; simpl in Es.
  - apply IH2; [reflexivity | exact Es].
  - injection Es as E1 E2; subst. exists s1, s2. auto.
Qed.

Lemma deriv_Lang (c : QChar) (r : re) (s : QString) :
  Lang (deriv c r) s <-> Lang r (c :: s).
Proof.
  revert s.
  induction r as [ | | ranges | r1 IH1 r2 IH2 | r1 IH1 r2 IH2 | r IH];
    intros s; simpl.
  - split; intros H; inversion H.
  - split; intros H; inversion H.
  - destruct (inClass ranges c) eqn:E; split; intros H; inversion H; subst.
    + constructor; exact E.
    + constructor.
    + congruence.
  - assert (Fwd : forall s1 s2, Lang (deriv c r1) s1 -> Lang r2 s2 ->
                                Lang (Cat r1 r2) (c :: s1 ++ s2)).
    { intros s1 s2 H1 H2. apply IH1 in H1.
      apply (LCat r1 r2 (c :: s1) s2 H1 H2). }
    assert (Bwd : Lang (Cat r1 r2) (c :: s) ->
                  (exists s1 s2, s = s1 ++ s2 /\ Lang (deriv c r1) s1 /\ Lang r2 s2)
                  \/ (Lang r1 [] /\ Lang r2 (c :: s))).
    { intros H. inversion H as [ | | ? ? s1 s2 H1 H2 E | | | | ]; subst.
      destruct s1 as [|c1 s1]; simpl in *.
      - right. subst s2. auto.
      - match goal with E : _ :: _ = _ :: _ |- _ => injection E as E1 E2 end.
        subst. left. exists s1, s2. rewrite IH1. auto. }
    destruct (nullable r1) eqn:Nu; split; intros H.
    + inversion H as [ | | | ? ? ? H' | ? ? ? H' | | ]; subst.
      * inversion H'; subst. apply Fwd; assumption.
      * apply IH2 in H'. apply nullable_Lang in Nu.
        apply (LCat r1 r2 [] (c :: s) Nu H').
    + destruct (Bwd H) as [(s1 & s2 & -> & H1 & H2) | [H1 H2]].
      * apply LAltL. constructor; assumption.
      * apply LAltR. apply IH2. exact H2.
    + inversion H; subst. apply Fwd; assumption.
    + destruct (Bwd H) as [(s1 & s2 & -> & H1 & H2) | [H1 H2]].
      * constructor; assumption.
      * apply nullable_Lang in H1. congruence.
  - split; intros H; inversion H; subst.
    + apply LAltL, IH1; assumption.
    + apply LAltR, IH2; assumption.
    + apply LAltL, IH1; assumption.
    + apply LAltR, IH2; assumption.
  - split; intros H.
    + inversion H as [ | | ? ? s1 s2 H1 H2 | | | | ]; subst.
      apply IH in H1. apply (LStarApp r (c :: s1) s2 H1 H2).
    + apply Lang_Star_cons in H as (s1 & s2 & -> & H1 & H2).
      constructor; [apply IH; exact H1 | exact H2].
Qed.

Theorem exactMatch_Lang (r : re) (s : QString) :
  exactMatch r s = true <-> Lang r s.
Proof.
  revert r; induction s as [|c s IH]; intros r; simpl.
  - apply nullable_Lang.
  - rewrite IH. apply deriv_Lang.
Qed.

Lemma Lang_Star_Class (ranges : list (QChar * QChar)) (s : QString) :
  Lang (Star (Class ranges)) s <-> forallb (inClass ranges) s = true.
Proof.
  split.
  - induction s as [|c s IH]; intros H; [reflexivity | ].
    apply Lang_Star_cons in H as (s1 & s2 & -> & H1 & H2).
    inversion H1; subst. simpl in *. rewrite IH by exact H2.
    rewrite andb_true_r. assumption.
  - induction s as [|c s IH]; simpl; intros H; [constructor | ].
    apply andb_true_iff in H as [Hc Hs].
    apply (LStarApp (Class ranges) [c] s); [constructor; exact Hc | auto].
Qed.

(** ** The key pattern *)

Lemma keyClass_start (c : QChar) :
  inClass [(ch "a", ch "z"); (ch "A", ch "Z"); (ch "_", ch "_")] c = identStart c.
Proof.
  unfold inClass, identStart, QChar.inRange, QChar.eqb; simpl.
  rewrite orb_false_r, <- orb_assoc. do 2 f_equal.
  apply eq_true_iff_eq. rewrite andb_true_iff, !N.leb_le, N.eqb_eq.
  unfold ch; simpl. lia.
Qed.

Lemma keyClass_char (c : QChar) :
  inClass [(ch "a", ch "z"); (ch "A", ch "Z"); (ch "0", ch "9"); (ch "_", ch "_")] c
  = identChar c.
Proof.
  unfold identChar. rewrite <- keyClass_start.
  unfold inClass, QChar.inRange; simpl.
  repeat match goal with
         | |- context [N.leb ?a ?b] => destruct (N.leb a b)
         end; reflexivity.
Qed.

Lemma identStart_identChar (c : QChar) : identStart c = true -> identChar c = true.
Proof. unfold identChar. intros ->. reflexivity. Qed.

Lemma forallb_ext_in {A : Type} (f g : A -> bool) (l : list A) :
  (forall x, f x = g x) -> forallb f l = forallb g l.
Proof. intros E. induction l as [|x l IH]; simpl; [ | rewrite E, IH]; reflexivity. Qed.

Lemma keyPattern_wellFormed (key : QString) :
  exactMatch keyPattern key = wellFormedKey key.
Proof.
  apply eq_true_iff_eq. rewrite exactMatch_Lang. unfold keyPattern, Plus. split.
  - intros H.
    inversion H as [ | | ? ? s12 s3 H12 H3 | | | | ]; subst.
    inversion H12 as [ | | ? ? s1 s2 H1 H2 | | | | ]; subst.
    inversion H1 as [ | ? c Hc | | | | | ]; subst.
    apply Lang_Star_Class in H2, H3. simpl.
    rewrite keyClass_start in Hc. rewrite Hc. simpl.
    rewrite forallb_app.
    rewrite (forallb_ext_in _ _ _ keyClass_char) in H3. rewrite H3, andb_true_r.
    rewrite (forallb_ext_in _ _ _ keyClass_start) in H2.
    rewrite forallb_forall in H2 |- *. intros x I.
    apply identStart_identChar, H2, I.
  - destruct key as [|c rest]; simpl; [discriminate | ].
    rewrite andb_true_iff. intros [Hc Hr].
    apply (LCat _ _ [c] rest).
    + apply (LCat _ _ [c] []); constructor. rewrite keyClass_start; exact Hc.
    + apply Lang_Star_Class.
      rewrite (forallb_ext_in _ _ _ keyClass_char). exact Hr.
Qed.

Lemma identifierPattern_wellFormed (key : QString) :
  identifierSyntax key = wellFormedKey key.
Proof.
  apply eq_true_iff_eq. unfold identifierSyntax.
  rewrite exactMatch_Lang. unfold identifierPattern. split.
  - intros H.
    inversion H as [ | | ? ? s1 s2 H1 H2 | | | | ]; subst.
    inversion H1 as [ | ? c Hc | | | | | ]; subst.
    apply Lang_Star_Class in H2. simpl.
    rewrite keyClass_start in Hc. rewrite Hc. simpl.
    rewrite (forallb_ext_in _ _ _ keyClass_char) in H2. exact H2.
  - destruct key as [|c rest]; simpl; [discriminate | ].
    rewrite andb_true_iff. intros [Hc Hr].
    apply (LCat _ _ [c] rest).
    + constructor. rewrite keyClass_start; exact Hc.
    + apply Lang_Star_Class.
      rewrite (forallb_ext_in _ _ _ keyClass_char). exact Hr.
Qed.

(** The pattern of the code and the pattern of the rule accept the same
    keys. *)
Lemma keyPattern_identifierSyntax (key : QString) :
  exactMatch keyPattern key = identifierSyntax key.
Proof. rewrite keyPattern_wellFormed, identifierPattern_wellFormed. reflexivity. Qed.

Lemma wellFormedKey_chars (key : QString) :
  wellFormedKey key = true -> forallb identChar key = true.
Proof.
  destruct key as [|c rest]; simpl; [discriminate | ].
  rewrite !andb_true_iff. intros [Hc Hr]. split; [ | exact Hr].
  apply identStart_identChar, Hc.
Qed.

Lemma wellFormedKey_no_eq (key : QString) :
  wellFormedKey key = true -> ~ In (ch "=") key.
Proof.
  intros W I. apply wellFormedKey_chars in W.
  rewrite forallb_forall in W. apply W in I. discriminate I.
Qed.

Lemma wellFormedKey_not_comment (key rest : QString) :
  wellFormedKey key = true -> QString.startsWith (key ++ rest) (ch "#") = false.
Proof.
  destruct key as [|c key]; simpl; [discriminate | ].
  rewrite andb_true_iff. intros [Hc _].
  unfold QChar.eqb. apply N.eqb_neq. intros ->. discriminate Hc.
Qed.

(** ** split and section *)

Lemma split_no_sep (sep : QChar) (s : QString) :
  ~ In sep s -> QString.split sep s = [s].
Proof.
  induction s as [|c s IH]; simpl; intros N; [reflexivity | ].
  destruct (QChar.eqb c sep) eqn:E.
  - apply N.eqb_eq in E. tauto.
  - rewrite IH by tauto. reflexivity.
Qed.

Lemma split_at_sep (sep : QChar) (key raw : QString) :
  ~ In sep key ->
  QString.split sep (key ++ sep :: raw) = key :: QString.split sep raw.
Proof.
  induction key as [|c key IH]; simpl; intros N.
  - unfold QChar.eqb. rewrite N.eqb_refl. reflexivity.
  - destruct (QChar.eqb c sep) eqn:E.
    + apply N.eqb_eq in E. tauto.
    + rewrite IH by tauto. reflexivity.
Qed.

Lemma split_not_nil (sep : QChar) (s : QString) : QString.split sep s <> [].
Proof.
  destruct s as [|c s]; simpl; [discriminate | ].
  destruct (QChar.eqb c sep); [discriminate | ].
  destruct (QString.split sep s); discriminate.
Qed.

Lemma join_split (sep : QChar) (s : QString) :
  QString.join sep (QString.split sep s) = s.
Proof.
  induction s as [|c s IH]; simpl; [reflexivity | ].
  destruct (QChar.eqb c sep) eqn:E.
  - apply N.eqb_eq in E; subst c.
    destruct (QString.split sep s) as [|f fs] eqn:S.
    + destruct (split_not_nil sep s S).
    + simpl. f_equal. exact IH.
  - destruct (QString.split sep s) as [|f fs] eqn:S.
    + destruct (split_not_nil sep s S).
    + destruct fs; simpl in *; rewrite <- IH; reflexivity.
Qed.

(** A line either has no separator, or is a first field, the first
    separator and the rest. *)
Lemma first_sep (sep : QChar) (line : QString) :
  ~ In sep line \/
  exists key raw, line = key ++ sep :: raw /\ ~ In sep key.
Proof.
  induction line as [|c line IH].
  - left. intros [].
  - destruct (N.eq_dec c sep) as [-> | N].
    + right. exists [], line. split; [reflexivity | intros []].
    + destruct IH as [IH | (key & raw & -> & IH)].
      * left. intros [H | H]; [congruence | tauto].
      * right. exists (c :: key), raw. split; [reflexivity | ].
        intros [H | H]; [congruence | tauto].
Qed.

Lemma section_key (sep : QChar) (key raw : QString) :
  ~ In sep key -> QString.section (key ++ sep :: raw) sep 0 0 = key.
Proof.
  intros N. unfold QString.section. rewrite split_at_sep by exact N.
  cbn [length]. rewrite Nat2Z.inj_succ.
  replace (0 <? 0) with false by reflexivity.
  destruct (Z.leb_spec (Z.succ (Z.of_nat (length (QString.split sep raw)))) 0);
    [lia | ].
  reflexivity.
Qed.

Lemma section_value (sep : QChar) (key raw : QString) :
  ~ In sep key -> QString.section (key ++ sep :: raw) sep 1 (-1) = raw.
Proof.
  intros N. unfold QString.section. rewrite split_at_sep by exact N.
  cbn [length]. rewrite Nat2Z.inj_succ.
  set (fields := QString.split sep raw).
  assert (L : (0 < length fields)%nat).
  { assert (F := split_not_nil sep raw). fold fields in F.
    destruct fields; [congruence | simpl; lia]. }
  replace (1 <? 0) with false by reflexivity.
  replace (-1 <? 0) with true by reflexivity.
  destruct (Z.leb_spec (Z.succ (Z.of_nat (length fields))) 1); [lia | ].
  destruct (Z.ltb_spec (-1 + Z.succ (Z.of_nat (length fields))) 0); [lia | ].
  destruct (Z.ltb_spec (-1 + Z.succ (Z.of_nat (length fields))) 1); [lia | ].
  cbn [orb]. replace (Z.max 0 1) with 1 by reflexivity.
  replace (Z.to_nat 1) with 1%nat by reflexivity. cbn [skipn].
  rewrite firstn_all2 by lia.
  apply join_split.
Qed.

Lemma section_key_bare (sep : QChar) (line : QString) :
  ~ In sep line -> QString.section line sep 0 0 = line.
Proof.
  intros N. unfold QString.section. rewrite split_no_sep by exact N.
  reflexivity.
Qed.

Lemma section_value_bare (sep : QChar) (line : QString) :
  ~ In sep line -> QString.section line sep 1 (-1) = [].
Proof.
  intros N. unfold QString.section. rewrite split_no_sep by exact N.
  reflexivity.
Qed.

(** ** trimmed *)

Lemma dropSpaces_incl (s : QString) (c : QChar) :
  In c (QString.dropSpaces s) -> In c s.
Proof.
  induction s as [|x s IH]; simpl; [tauto | ].
  destruct (QChar.isSpace x); [auto | simpl; tauto].
Qed.

Lemma trimmed_incl (s : QString) (c : QChar) :
  In c (QString.trimmed s) -> In c s.
Proof.
  unfold QString.trimmed. intros H.
  apply in_rev, dropSpaces_incl, in_rev, dropSpaces_incl in H. exact H.
Qed.

(** Whitespace in front of the value is removed ... *)
Lemma trimmed_leading (c : QChar) (s : QString) :
  QChar.isSpace c = true -> QString.trimmed (c :: s) = QString.trimmed s.
Proof. intros H. unfold QString.trimmed. simpl. rewrite H. reflexivity. Qed.

Lemma dropSpaces_all (s : QString) :
  forallb QChar.isSpace s = true -> QString.dropSpaces s = [].
Proof.
  induction s as [|x s IH]; simpl; [reflexivity | ].
  destruct (QChar.isSpace x); [exact IH | discriminate].
Qed.

Lemma dropSpaces_app (s t : QString) :
  forallb QChar.isSpace s = false ->
  QString.dropSpaces (s ++ t) = QString.dropSpaces s ++ t.
Proof.
  induction s as [|x s IH]; simpl; [discriminate | ].
  destruct (QChar.isSpace x); [exact IH | reflexivity].
Qed.

(** ... and so is whitespace behind it. *)
Lemma trimmed_trailing (c : QChar) (s : QString) :
  QChar.isSpace c = true -> QString.trimmed (s ++ [c]) = QString.trimmed s.
Proof.
  intros H. unfold QString.trimmed.
  destruct (forallb QChar.isSpace s) eqn:A.
  - rewrite (dropSpaces_all s A).
    rewrite (dropSpaces_all (s ++ [c])); [reflexivity | ].
    rewrite forallb_app, A. simpl. rewrite H. reflexivity.
  - rewrite dropSpaces_app by exact A.
    rewrite rev_app_distr. simpl. rewrite H. reflexivity.
Qed.

(** A value that neither starts nor ends with whitespace is left as it is. *)
Lemma trimmed_id (c d : QChar) (s : QString) :
  QChar.isSpace c = false -> QChar.isSpace d = false ->
  QString.trimmed (c :: s ++ [d]) = c :: s ++ [d].
Proof.
  intros Hc Hd. unfold QString.trimmed. cbn [QString.dropSpaces]. rewrite Hc.
  change (c :: s ++ [d]) with ((c :: s) ++ [d]).
  rewrite rev_app_distr. change (rev [d]) with [d].
  cbn [app QString.dropSpaces]. rewrite Hd.
  change (d :: rev (c :: s)) with ([d] ++ rev (c :: s)).
  rewrite rev_app_distr, rev_involutive. reflexivity.
Qed.

Lemma trimmed_id1 (c : QChar) :
  QChar.isSpace c = false -> QString.trimmed [c] = [c].
Proof. intros Hc. unfold QString.trimmed. simpl. rewrite Hc. simpl. rewrite Hc. reflexivity. Qed.

(** ** at and mid *)

Lemma at_first (c : QChar) (s : QString) : QString.at_ (c :: s) 0 = Ok c.
Proof.
  unfold QString.at_, QString.size. cbn [length]. rewrite Nat2Z.inj_succ.
  destruct (Z.ltb_spec 0 (Z.succ (Z.of_nat (length s)))); [reflexivity | lia].
Qed.

Lemma at_last (s : QString) (d : QChar) :
  QString.at_ (s ++ [d]) (QString.size (s ++ [d]) - 1) = Ok d.
Proof.
  unfold QString.at_, QString.size. rewrite length_app. cbn [length].
  rewrite Nat2Z.inj_add. change (Z.of_nat 1) with 1.
  replace (Z.of_nat (length s) + 1 - 1) with (Z.of_nat (length s)) by lia.
  destruct (Z.leb_spec 0 (Z.of_nat (length s))); [ | lia].
  destruct (Z.ltb_spec (Z.of_nat (length s)) (Z.of_nat (length s) + 1)); [ | lia].
  cbn [andb]. rewrite Nat2Z.id, nth_error_app2, Nat.sub_diag by lia.
  reflexivity.
Qed.

Lemma at_last_cons (c d : QChar) (s : QString) :
  QString.at_ (c :: s ++ [d]) (QString.size (c :: s ++ [d]) - 1) = Ok d.
Proof. exact (at_last (c :: s) d). Qed.

Lemma at_empty (i : Z) : QString.at_ [] i = AssertFailed.
Proof.
  unfold QString.at_, QString.size. simpl.
  destruct (0 <=? i) eqn:A, (i <? 0) eqn:B; try reflexivity.
  apply Z.leb_le in A. apply Z.ltb_lt in B. lia.
Qed.

(** [mid(1, size - 2)] of a string of two characters or more is the string
    without its first and its last character. *)
Lemma mid_inner (c d : QChar) (s : QString) :
  QString.mid (c :: s ++ [d]) 1 (QString.size (c :: s ++ [d]) - 2) = s.
Proof.
  unfold QString.mid, QString.size. cbn [length]. rewrite length_app. cbn [length].
  rewrite Nat2Z.inj_succ, Nat2Z.inj_add. change (Z.of_nat 1) with 1.
  set (n := Z.of_nat (length s)).
  assert (0 <= n) by (unfold n; lia).
  destruct (Z.ltb_spec (Z.succ (n + 1)) 1); [lia | ].
  replace (1 <? 0) with false by reflexivity.
  destruct (Z.ltb_spec (Z.succ (n + 1) - 2) 0); [lia | ].
  destruct (Z.ltb_spec (Z.succ (n + 1) - 1) (Z.succ (n + 1) - 2)); [lia | ].
  cbn [orb]. replace (Z.to_nat 1) with 1%nat by reflexivity. cbn [skipn].
  replace (Z.to_nat (Z.succ (n + 1) - 2)) with (length s) by (unfold n; lia).
  rewrite firstn_app, Nat.sub_diag, firstn_all. simpl. apply app_nil_r.
Qed.

(** [mid(1, -1)] of a string of one character is empty. *)
Lemma mid_single (c : QChar) : QString.mid [c] 1 (QString.size [c] - 2) = [].
Proof. reflexivity. Qed.

(** ** The quote check *)

Lemma unquote_empty : unquote [] = AssertFailed.
Proof. reflexivity. Qed.

Lemma unquote_plain (c : QChar) (s : QString) :
  isQuote c = false -> unquote (c :: s) = Ok (Some (c :: s)).
Proof.
  intros H. unfold unquote. rewrite at_first. cbn [bind].
  unfold isQuote in H. rewrite H. reflexivity.
Qed.

Lemma unquote_matched (q : QChar) (s : QString) :
  isQuote q = true -> unquote (q :: s ++ [q]) = Ok (Some s).
Proof.
  intros H. unfold unquote. rewrite at_first. cbn [bind].
  unfold isQuote in H. rewrite H.
  rewrite at_last_cons. cbn [bind].
  unfold QChar.eqb at 1. rewrite N.eqb_refl. cbn [negb].
  rewrite mid_inner. reflexivity.
Qed.

Lemma unquote_mismatched (q d : QChar) (s : QString) :
  isQuote q = true -> d <> q -> unquote (q :: s ++ [d]) = Ok None.
Proof.
  intros H N. unfold unquote. rewrite at_first. cbn [bind].
  unfold isQuote in H. rewrite H.
  rewrite at_last_cons. cbn [bind].
  unfold QChar.eqb at 1. destruct (N.eqb_spec q d); [congruence | reflexivity].
Qed.

(** A quote character alone is its own closing quote. *)
Lemma unquote_single (q : QChar) :
  isQuote q = true -> unquote [q] = Ok (Some []).
Proof.
  intros H. unfold unquote. rewrite at_first. cbn [bind].
  unfold isQuote in H. rewrite H.
  change (QString.at_ [q] (QString.size [q] - 1)) with (Ok q). cbn [bind].
  unfold QChar.eqb at 1. rewrite N.eqb_refl. reflexivity.
Qed.

Lemma unquote_incl (value v : QString) (c : QChar) :
  unquote value = Ok (Some v) -> In c v -> In c value.
Proof.
  destruct value as [|q s]; [discriminate | ].
  destruct (isQuote q) eqn:Q.
  - destruct (rev s) as [|d r] eqn:R.
    + apply (f_equal (@rev _)) in R. rewrite rev_involutive in R. subst s.
      rewrite unquote_single by exact Q. intros E; injection E as <-. intros [].
    + apply (f_equal (@rev _)) in R. rewrite rev_involutive in R. subst s.
      simpl. destruct (N.eq_dec d q) as [-> | N].
      * rewrite unquote_matched by exact Q. intros E; injection E as <-.
        intros I. right. apply in_or_app. left. exact I.
      * rewrite unquote_mismatched by assumption. discriminate.
  - rewrite unquote_plain by exact Q. intros E; injection E as <-. auto.
Qed.

(** ** Unescaping *)

Lemma unescape_cons2 (c d : QChar) (v : QString) :
  unescape (c :: d :: v) =
  if (QChar.eqb c backslash && dot d)%bool then d :: unescape v
  else c :: unescape (d :: v).
Proof. reflexivity. Qed.

Lemma dot_true (d : QChar) : d <> newline -> dot d = true.
Proof.
  intros N. unfold dot, QChar.eqb.
  destruct (N.eqb_spec d newline); [congruence | reflexivity].
Qed.

(** The replacement is the one the specification describes. *)
Lemma unescape_Unescaped (v : QString) :
  ~ In newline v -> Unescaped v (unescape v).
Proof.
  assert (G : forall n v, (length v <= n)%nat -> ~ In newline v ->
                          Unescaped v (unescape v)).
  { clear v. induction n as [|n IH]; intros v L N.
    - destruct v; [constructor | simpl in L; lia].
    - destruct v as [|c [|d v]].
      + constructor.
      + simpl. destruct (N.eq_dec c backslash) as [-> | B].
        * constructor.
        * constructor; [exact B | constructor].
      + rewrite unescape_cons2. unfold QChar.eqb.
        destruct (N.eqb_spec c backslash) as [-> | B].
        * rewrite dot_true by (simpl in N; intuition congruence).
          cbn [andb]. constructor. apply IH; [simpl in L; lia | ].
          simpl in N. tauto.
        * cbn [andb]. constructor; [exact B | ].
          apply IH; [simpl in L |- *; lia | ]. simpl in N |- *. tauto. }
  apply (G (length v)). lia.
Qed.

Lemma Unescaped_functional (v w1 w2 : QString) :
  Unescaped v w1 -> Unescaped v w2 -> w1 = w2.
Proof.
  intros H1. revert w2.
  induction H1 as [ | | X v w H IH | c v w B H IH]; intros w2 H2.
  - inversion H2; reflexivity.
  - inversion H2 as [ | | | ? ? ? B' H']; subst; [reflexivity | ].
    congruence.
  - inversion H2 as [ | | ? ? ? H' | ? ? ? B' H']; subst.
    + f_equal. apply IH. exact H'.
    + congruence.
  - inversion H2 as [ | | ? ? ? H' | ? ? ? B' H']; subst; try congruence.
    f_equal. apply IH. exact H'.
Qed.

(** The leftmost backslash and the character after it are one match; the
    search goes on behind it. *)
Lemma unescape_segment (u : QString) (X : QChar) (rest : QString) :
  ~ In backslash u -> X <> newline ->
  unescape (u ++ backslash :: X :: rest) = u ++ X :: unescape rest.
Proof.
  intros N D. induction u as [|c u IH].
  - simpl app. rewrite unescape_cons2.
    unfold QChar.eqb. rewrite N.eqb_refl, dot_true by exact D. reflexivity.
  - assert (B : c <> backslash) by (simpl in N; intuition congruence).
    assert (IH' := IH ltac:(simpl in N; tauto)).
    destruct u as [|d u]; simpl app in *.
    + rewrite unescape_cons2. unfold QChar.eqb at 1.
      destruct (N.eqb_spec c backslash); [congruence | ].
      cbn [andb]. rewrite IH'. reflexivity.
    + rewrite unescape_cons2. unfold QChar.eqb at 1.
      destruct (N.eqb_spec c backslash); [congruence | ].
      cbn [andb]. rewrite IH'. reflexivity.
Qed.

Lemma unescape_plain (u : QString) : ~ In backslash u -> unescape u = u.
Proof.
  induction u as [|c u IH]; intros N; [reflexivity | ].
  assert (B : c <> backslash) by (simpl in N; intuition congruence).
  destruct u as [|d u]; [reflexivity | ].
  rewrite unescape_cons2. unfold QChar.eqb at 1.
  destruct (N.eqb_spec c backslash); [congruence | ].
  cbn [andb]. rewrite IH by (simpl in N |- *; tauto). reflexivity.
Qed.

(** ** Lines *)

Lemma endOfLine_incl (line : QString) (c : QChar) :
  In c (endOfLine line) -> In c line.
Proof.
  destruct line as [|x line]; simpl; [tauto | ].
  destruct (QChar.eqb x carriageReturn); intros H.
  - right. apply in_rev. exact H.
  - apply in_app_or in H. destruct H as [H | [H | []]].
    + right. apply in_rev. exact H.
    + left. exact H.
Qed.

Lemma readLinesFrom_no_newline (text cur line : QString) :
  ~ In newline cur -> In line (readLinesFrom cur text) -> ~ In newline line.
Proof.
  revert cur; induction text as [|c text IH]; intros cur N; simpl.
  - destruct cur as [|x cur]; [intros [] | ].
    intros [<- | []] I. apply N. apply in_rev. exact I.
  - unfold QChar.eqb. destruct (N.eqb_spec c newline) as [-> | C].
    + intros [<- | I].
      * intros I. apply N, endOfLine_incl, I.
      * apply (IH []); [intros [] | exact I].
    + apply IH. intros [E | I]; [congruence | tauto].
Qed.

Lemma readLines_no_newline (text line : QString) :
  In line (readLines text) -> ~ In newline line.
Proof. apply readLinesFrom_no_newline. intros []. Qed.

(** ** One line of the release file *)

Lemma parseLine_comment (line : QString) :
  QString.startsWith line (ch "#") = true -> parseLine line = Ok Comment.
Proof. intros H. unfold parseLine. rewrite H. reflexivity. Qed.

Lemma parseLine_invalid (line : QString) :
  QString.startsWith line (ch "#") = false ->
  identifierSyntax (QString.section line (ch "=") 0 0) = false ->
  parseLine line = Ok InvalidKey.
Proof.
  intros C K. unfold parseLine.
  rewrite C, keyPattern_identifierSyntax, K. reflexivity.
Qed.

(** A line [key=raw] with a key of the pattern goes on to the quote check
    with the trimmed [raw]. *)
Lemma parseLine_assignment (key raw : QString) :
  wellFormedKey key = true ->
  parseLine (key ++ ch "=" :: raw) =
  (unquoted <- unquote (QString.trimmed raw) ;;
   match unquoted with
   | None => Ok QuotingError
   | Some value => Ok (Assign key (unescape value))
   end).
Proof.
  intros W. unfold parseLine.
  rewrite wellFormedKey_not_comment by exact W.
  rewrite section_key, section_value by (apply wellFormedKey_no_eq; exact W).
  rewrite keyPattern_wellFormed, W. reflexivity.
Qed.

(** A line without [=] that is a key of the pattern has the empty value. *)
Lemma parseLine_bare (key : QString) :
  wellFormedKey key = true ->
  parseLine key =
  (unquoted <- unquote [] ;;
   match unquoted with
   | None => Ok QuotingError
   | Some value => Ok (Assign key (unescape value))
   end).
Proof.
  intros W. unfold parseLine.
  assert (C := wellFormedKey_not_comment key [] W). rewrite app_nil_r in C.
  rewrite C.
  rewrite section_key_bare, section_value_bare
    by (apply wellFormedKey_no_eq; exact W).
  rewrite keyPattern_wellFormed, W. reflexivity.
Qed.

Lemma parseLine_Assign (line key value : QString) :
  parseLine line = Ok (Assign key value) ->
  key = QString.section line (ch "=") 0 0 /\
  identifierSyntax key = true /\
  exists v, unquote (QString.trimmed (QString.section line (ch "=") 1 (-1)))
            = Ok (Some v) /\ value = unescape v.
Proof.
  unfold parseLine.
  destruct (QString.startsWith line (ch "#")); [discriminate | ].
  rewrite keyPattern_identifierSyntax.
  destruct (identifierSyntax (QString.section line (ch "=") 0 0)) eqn:K;
    [ | discriminate].
  cbn [negb].
  destruct (unquote (QString.trimmed (QString.section line (ch "=") 1 (-1))))
    as [[v | ] | ]; cbn [bind]; try discriminate.
  intros E; injection E as <- <-.
  repeat split; [exact K | ]. exists v. auto.
Qed.

(** The only line the parser stops at: a key of the pattern whose value is
    empty after trimming. *)
Lemma parseLine_AssertFailed (line : QString) :
  parseLine line = AssertFailed <->
  QString.startsWith line (ch "#") = false /\
  identifierSyntax (QString.section line (ch "=") 0 0) = true /\
  QString.trimmed (QString.section line (ch "=") 1 (-1)) = [].
Proof.
  unfold parseLine.
  destruct (QString.startsWith line (ch "#")).
  { split; [discriminate | intros [H _]; discriminate]. }
  rewrite keyPattern_identifierSyntax.
  destruct (identifierSyntax (QString.section line (ch "=") 0 0)); cbn [negb].
  2: { split; [discriminate | intros (_ & H & _); discriminate]. }
  destruct (QString.trimmed (QString.section line (ch "=") 1 (-1)))
    as [|c value].
  - split; [auto | reflexivity].
  - split; [ | intros (_ & _ & H); discriminate].
    unfold unquote. rewrite at_first. cbn [bind].
    destruct (QChar.eqb c singleQuote || QChar.eqb c doubleQuote)%bool.
    + destruct (rev value) as [|d r] eqn:R;
        apply (f_equal (@rev _)) in R; rewrite rev_involutive in R;
        simpl in R; subst value.
      * change (QString.at_ [c] (QString.size [c] - 1)) with (Ok c).
        cbn [bind]. destruct (negb (QChar.eqb c c)); cbn [bind]; discriminate.
      * rewrite at_last_cons. cbn [bind].
        destruct (negb (QChar.eqb c d)); cbn [bind]; discriminate.
    + cbn [bind]. discriminate.
Qed.

Lemma section_value_incl (line : QString) (c : QChar) :
  In c (QString.section line (ch "=") 1 (-1)) -> In c line.
Proof.
  destruct (first_sep (ch "=") line) as [N | (key & raw & -> & N)].
  - rewrite section_value_bare by exact N. intros [].
  - rewrite section_value by exact N. intros I.
    apply in_or_app. right. right. exact I.
Qed.

(** ** The lines of a file *)

Lemma parseLines_skip (line : QString) (lines : list QString) (m : QMap.t)
  (r : LineResult) :
  parseLine line = Ok r -> (forall k v, r <> Assign k v) ->
  parseLines (line :: lines) m = parseLines lines m.
Proof.
  intros E N. simpl. rewrite E. cbn [bind].
  destruct r; try reflexivity. destruct (N key value eq_refl).
Qed.

Lemma parseLines_assign (line : QString) (lines : list QString) (m : QMap.t)
  (key value : QString) :
  parseLine line = Ok (Assign key value) ->
  parseLines (line :: lines) m = parseLines lines (QMap.insert key value m).
Proof. intros E. simpl. rewrite E. reflexivity. Qed.

Lemma QMap_insert_keys (m : QMap.t) (k v k' : QString) :
  In k' (QMap.keys (QMap.insert k v m)) -> k' = k \/ In k' (QMap.keys m).
Proof.
  intros I. destruct (list_eq_dec N.eq_dec k' k) as [E | N]; [left; exact E | ].
  right. apply QMap_find_In. apply QMap_find_In in I.
  rewrite QMap_find_insert_ne in I by exact N. exact I.
Qed.

Lemma parseLines_keys (lines : list QString) (m m' : QMap.t) :
  parseLines lines m = Ok m' ->
  (forall k, In k (QMap.keys m) -> identifierSyntax k = true) ->
  forall k, In k (QMap.keys m') -> identifierSyntax k = true.
Proof.
  revert m; induction lines as [|line lines IH]; intros m E Inv; simpl in E.
  - injection E as <-. exact Inv.
  - destruct (parseLine line) as [r | ] eqn:P; [ | discriminate].
    cbn [bind] in E.
    destruct r; try (apply (IH m E Inv)).
    apply (IH _ E). intros k I.
    apply QMap_insert_keys in I as [-> | I]; [ | apply Inv, I].
    apply parseLine_Assign in P. tauto.
Qed.

(** The parser returns a mapping for every file without a line that assigns
    an empty value. *)
Lemma parseLines_returns (lines : list QString) (m : QMap.t) :
  (forall line, In line lines -> parseLine line <> AssertFailed) ->
  exists m', parseLines lines m = Ok m'.
Proof.
  revert m; induction lines as [|line lines IH]; intros m H; simpl.
  - exists m. reflexivity.
  - destruct (parseLine line) as [r | ] eqn:P.
    + cbn [bind]. destruct r; apply IH; intros l I; apply H; right; exact I.
    + destruct (H line (or_introl eq_refl) P).
Qed.

(** ** Values of a line *)

Lemma parseLine_empty_value (key raw : QString) :
  wellFormedKey key = true -> QString.trimmed raw = [] ->
  parseLine (key ++ ch "=" :: raw) = AssertFailed.
Proof.
  intros W T. rewrite parseLine_assignment by exact W. rewrite T. reflexivity.
Qed.

Lemma parseLine_bare_key (key : QString) :
  wellFormedKey key = true -> parseLine key = AssertFailed.
Proof. intros W. rewrite parseLine_bare by exact W. reflexivity. Qed.

Lemma parseLine_unquoted (key raw : QString) (c : QChar) (value : QString) :
  wellFormedKey key = true -> QString.trimmed raw = c :: value ->
  isQuote c = false ->
  parseLine (key ++ ch "=" :: raw) = Ok (Assign key (unescape (c :: value))).
Proof.
  intros W T Q. rewrite parseLine_assignment by exact W.
  rewrite T, unquote_plain by exact Q. reflexivity.
Qed.

(** A value in matching quotes loses them. *)
Lemma parseLine_quoted (key raw : QString) (q : QChar) (body : QString) :
  wellFormedKey key = true -> QString.trimmed raw = q :: body ++ [q] ->
  isQuote q = true ->
  parseLine (key ++ ch "=" :: raw) = Ok (Assign key (unescape body)).
Proof.
  intros W T Q. rewrite parseLine_assignment by exact W.
  rewrite T, unquote_matched by exact Q. reflexivity.
Qed.

(** A value that opens with a quote and ends with another character is a
    quoting error, and the next line is read. *)
Lemma parseLine_quoting_error (key raw : QString) (q d : QChar)
  (body : QString) (lines : list QString) (m : QMap.t) :
  wellFormedKey key = true -> QString.trimmed raw = q :: body ++ [d] ->
  isQuote q = true -> d <> q ->
  parseLine (key ++ ch "=" :: raw) = Ok QuotingError /\
  parseLines ((key ++ ch "=" :: raw) :: lines) m = parseLines lines m.
Proof.
  intros W T Q N.
  assert (E : parseLine (key ++ ch "=" :: raw) = Ok QuotingError).
  { rewrite parseLine_assignment by exact W.
    rewrite T, unquote_mismatched by assumption. reflexivity. }
  split; [exact E | ].
  apply (parseLines_skip _ _ _ _ E). discriminate.
Qed.

(** A value that is one quote character passes the quote check. *)
Lemma parseLine_lone_quote (key raw : QString) (q : QChar) :
  wellFormedKey key = true -> QString.trimmed raw = [q] -> isQuote q = true ->
  parseLine (key ++ ch "=" :: raw) = Ok (Assign key []).
Proof.
  intros W T Q. rewrite parseLine_assignment by exact W.
  rewrite T, unquote_single by exact Q. reflexivity.
Qed.

(** ** The accessors *)

Lemma parseReleaseFile_unopened (fs : FileSystem) (filename : QString) :
  (forall text, fs filename <> Readable text) ->
  parseReleaseFile fs filename = Ok QMap.empty.
Proof.
  intros H. unfold parseReleaseFile.
  destruct (fs filename) as [ | | text]; try reflexivity.
  destruct (H text eq_refl).
Qed.

Lemma serial_missing (fs : FileSystem) :
  fs (QS "/config/serial/serial.txt") = Missing -> serial fs = [].
Proof. intros H. unfold serial. rewrite H. reflexivity. Qed.

Lemma QMap_index_absent (m : QMap.t) (key : QString) :
  QMap.contains m key = false -> snd (QMap.index m key) = [].
Proof.
  unfold QMap.contains, QMap.index.
  destruct (QMap.find m key); [discriminate | reflexivity].
Qed.

Lemma softwareVersion_absent (fs : FileSystem) (release : QMap.t) :
  parseReleaseFile fs (QS "/etc/os-release") = Ok release ->
  QMap.contains release (QS "VERSION") = false ->
  softwareVersion fs = Ok [].
Proof.
  intros P A. unfold softwareVersion. rewrite P. cbn [bind].
  rewrite QMap_index_absent by exact A. reflexivity.
Qed.

Lemma adaptationVersion_absent (fs : FileSystem) (release : QMap.t) :
  parseReleaseFile fs (QS "/etc/hw-release") = Ok release ->
  QMap.contains release (QS "VERSION_ID") = false ->
  adaptationVersion fs = Ok [].
Proof.
  intros P A. unfold adaptationVersion. rewrite P. cbn [bind].
  rewrite QMap_index_absent by exact A. reflexivity.
Qed.

(** The scenario of the specification without its line [EMPTY=] parses to
    the one entry for VERSION. *)
Example parse_scenarioWithoutEmpty :
  parseReleaseFile (oneFile (QS "/etc/os-release") scenarioWithoutEmpty)
                   (QS "/etc/os-release")
  = Ok [(QS "VERSION", QS "1.2.3")].
Proof. vm_compute. reflexivity. Qed.

(** ** The device map *)

Lemma QMap_index_value (m : QMap.t) (key : QString) :
  snd (QMap.index m key) = QMap.value m key.
Proof. unfold QMap.index, QMap.value. destruct (QMap.find m key); reflexivity. Qed.

(** [devices[key]] can add [key] to the map, and leaves every value as
    [value()] reads it. *)
Lemma QMap_index_preserves (m : QMap.t) (key k : QString) :
  QMap.value (fst (QMap.index m key)) k = QMap.value m k.
Proof.
  unfold QMap.index. destruct (QMap.find m key) eqn:F; [reflexivity | ].
  cbn [fst]. unfold QMap.value.
  destruct (list_eq_dec N.eq_dec k key) as [-> | N].
  - rewrite QMap_find_insert_eq, F. reflexivity.
  - rewrite QMap_find_insert_ne by exact N. reflexivity.
Qed.

Lemma readMounts_ascending (mtab : list mntent) (devices : QMap.t) :
  Ascending (QMap.keys devices) ->
  Ascending (QMap.keys (readMounts mtab devices)).
Proof.
  revert devices; induction mtab as [|entry mtab IH]; intros devices A; simpl.
  - exact A.
  - apply IH, QMap_insert_ascending, A.
Qed.

Lemma mountDevices_NoDup (mtab : list mntent) :
  NoDup (QMap.keys (mountDevices mtab)).
Proof. apply Ascending_NoDup, readMounts_ascending. constructor. Qed.

Lemma readMounts_keys (mtab : list mntent) (devices : QMap.t) (k : QString) :
  In k (QMap.keys (readMounts mtab devices)) <->
  In k (mountpoints mtab) \/ In k (QMap.keys devices).
Proof.
  revert devices; induction mtab as [|entry mtab IH]; intros devices; simpl.
  - tauto.
  - rewrite IH. split.
    + intros [H | H]; [tauto | ].
      apply QMap_insert_keys in H. destruct H as [-> | H]; tauto.
    + intros [[<- | H] | H]; [ | tauto | ].
      * right. apply QMap_find_In. rewrite QMap_find_insert_eq. discriminate.
      * right. apply QMap_find_In.
        destruct (list_eq_dec N.eq_dec k (fromLatin1 (mnt_dir entry))) as [-> | N].
        -- rewrite QMap_find_insert_eq. discriminate.
        -- rewrite QMap_find_insert_ne by exact N. apply QMap_find_In, H.
Qed.

(** The keys of the device map are the mountpoints of the mount table. *)
Lemma mountDevices_keys (mtab : list mntent) (k : QString) :
  In k (QMap.keys (mountDevices mtab)) <-> In k (mountpoints mtab).
Proof. unfold mountDevices. rewrite readMounts_keys. simpl. tauto. Qed.

(** The last entry of the mount table for a mountpoint gives its device. *)
Lemma readMounts_last (mtab : list mntent) (entry : mntent) (devices : QMap.t) :
  QMap.value (readMounts (mtab ++ [entry]) devices) (fromLatin1 (mnt_dir entry))
  = fromLatin1 (mnt_fsname entry).
Proof.
  revert devices; induction mtab as [|e mtab IH]; intros devices; simpl.
  - unfold QMap.value. rewrite QMap_find_insert_eq. reflexivity.
  - apply IH.
Qed.

(** ** The working path list *)

(** The first loop appends the keys that pass its test, in key order; the
    entries that [devices["/"]] adds on the way change no test. *)
Lemma addMountpoints_filter (keys : list QString)
  (devices0 devices : QMap.t) (paths : list QString) :
  (forall k, QMap.value devices k = QMap.value devices0 k) ->
  snd (addMountpoints keys devices paths)
  = paths ++ filter (reported devices0) keys.
Proof.
  revert devices paths; induction keys as [|mountpoint keys IH];
    intros devices paths Same; cbn [addMountpoints filter snd].
  - rewrite app_nil_r. reflexivity.
  - unfold reported at 1.
    destruct (contains candidates mountpoint); cbn [andb].
    + destruct (QMap.index devices mountpoint) as [devices1 device] eqn:I1.
      destruct (QMap.index devices1 (QS "/")) as [devices2 root] eqn:I2.
      assert (E1 : device = QMap.value devices0 mountpoint).
      { rewrite <- Same, <- QMap_index_value, I1. reflexivity. }
      assert (S1 : forall k, QMap.value devices1 k = QMap.value devices0 k).
      { intros k. rewrite <- Same, <- (QMap_index_preserves devices mountpoint k), I1.
        reflexivity. }
      assert (E2 : root = QMap.value devices0 (QS "/")).
      { rewrite <- S1, <- QMap_index_value, I2. reflexivity. }
      assert (S2 : forall k, QMap.value devices2 k = QMap.value devices0 k).
      { intros k. rewrite <- S1, <- (QMap_index_preserves devices1 (QS "/") k), I2.
        reflexivity. }
      rewrite <- E1, <- E2.
      destruct (negb (QString.eqb device root)).
      * rewrite (IH devices2 _ S2), <- app_assoc. reflexivity.
      * apply (IH devices2 _ S2).
    + apply (IH devices _ Same).
Qed.

Lemma workingPaths_filter (mtab : list mntent) :
  workingPaths mtab
  = QS "/" :: filter (reported (mountDevices mtab)) (QMap.keys (mountDevices mtab)).
Proof.
  unfold workingPaths.
  rewrite (addMountpoints_filter _ (mountDevices mtab)); reflexivity.
Qed.

Lemma contains_In (l : list QString) (s : QString) :
  contains l s = true <-> In s l.
Proof.
  unfold contains. rewrite existsb_exists. split.
  - intros (x & I & E). apply QString_eqb_eq in E. subst. exact I.
  - intros I. exists s. split; [exact I | apply QString_eqb_refl].
Qed.

Lemma reported_eligible (devices : QMap.t) (k : QString) :
  In k (QMap.keys devices) /\ reported devices k = true <->
  In k candidates /\ eligible devices k.
Proof.
  unfold reported, eligible.
  rewrite andb_true_iff, negb_true_iff, contains_In, QString_eqb_neq,
    QMap_contains_In.
  tauto.
Qed.

Lemma workingPaths_In (mtab : list mntent) (k : QString) :
  In k (workingPaths mtab) <->
  k = QS "/" \/ (In k candidates /\ eligible (mountDevices mtab) k).
Proof.
  rewrite workingPaths_filter. simpl. rewrite filter_In, reported_eligible.
  split; intros [H | H]; auto.
Qed.

Lemma root_not_candidate : ~ In (QS "/") candidates.
Proof. intros [H | []]. discriminate H. Qed.

Lemma root_not_reported (devices : QMap.t) : reported devices (QS "/") = false.
Proof. reflexivity. Qed.

Lemma filter_NoDup {A : Type} (f : A -> bool) (l : list A) :
  NoDup l -> NoDup (filter f l).
Proof.
  induction 1 as [|x l N _ IH]; simpl; [constructor | ].
  destruct (f x); [ | exact IH].
  constructor; [ | exact IH]. rewrite filter_In. tauto.
Qed.

Lemma workingPaths_NoDup (mtab : list mntent) : NoDup (workingPaths mtab).
Proof.
  rewrite workingPaths_filter. constructor.
  - rewrite filter_In, root_not_reported. intros [_ H]; discriminate H.
  - apply filter_NoDup, mountDevices_NoDup.
Qed.

(** With one candidate, the list is the root alone or the root and the
    candidate. *)
Lemma one_candidate_filter (f : QString -> bool) (c : QString)
  (l : list QString) :
  NoDup l -> (forall k, f k = true -> k = c) ->
  filter f l = if (existsb (QString.eqb c) l && f c)%bool then [c] else [].
Proof.
  intros N One. induction N as [|x l NI N IH]; [reflexivity | ].
  simpl. destruct (f x) eqn:F.
  - assert (x = c) by (apply One, F). subst x.
    rewrite QString_eqb_refl, F. cbn [orb andb]. f_equal.
    assert (E : existsb (QString.eqb c) l = false).
    { destruct (existsb (QString.eqb c) l) eqn:E; [ | reflexivity].
      apply existsb_exists in E as (y & I & E).
      apply QString_eqb_eq in E; subst. tauto. }
    rewrite IH, E. reflexivity.
  - rewrite IH. destruct (QString.eqb c x) eqn:E; [ | reflexivity].
    apply QString_eqb_eq in E; subst x. rewrite F, andb_false_r. reflexivity.
Qed.

Lemma workingPaths_cases (mtab : list mntent) :
  (workingPaths mtab = [QS "/"] /\
   ~ eligible (mountDevices mtab) (QS "/home")) \/
  (workingPaths mtab = [QS "/"; QS "/home"] /\
   eligible (mountDevices mtab) (QS "/home")).
Proof.
  rewrite workingPaths_filter.
  rewrite (one_candidate_filter _ (QS "/home")).
  - destruct (existsb (QString.eqb (QS "/home")) (QMap.keys (mountDevices mtab))
              && reported (mountDevices mtab) (QS "/home"))%bool eqn:E.
    + right. split; [reflexivity | ].
      apply andb_true_iff in E as [E1 E2].
      apply (reported_eligible (mountDevices mtab) (QS "/home")).
      split; [ | exact E2]. apply existsb_exists in E1 as (y & I & E).
      apply QString_eqb_eq in E; subst. exact I.
    + left. split; [reflexivity | ]. intros El.
      assert (C : In (QS "/home") candidates) by (left; reflexivity).
      destruct (proj2 (reported_eligible (mountDevices mtab) (QS "/home"))
                  (conj C El)) as [I R].
      rewrite R, andb_true_r in E.
      assert (X : existsb (QString.eqb (QS "/home")) (QMap.keys (mountDevices mtab)) = true).
      { apply existsb_exists. exists (QS "/home"). split; [exact I | apply QString_eqb_refl]. }
      congruence.
  - apply mountDevices_NoDup.
  - intros k R. unfold reported in R. apply andb_true_iff in R as [R _].
    apply contains_In in R. destruct R as [<- | []]. reflexivity.
Qed.

(** The paths after the root are in the order of [devices.keys()], the
    ascending order of the keys. *)
Lemma workingPaths_key_order (mtab : list mntent) :
  Ascending (tl (workingPaths mtab)).
Proof.
  destruct (workingPaths_cases mtab) as [[W _] | [W _]]; rewrite W; constructor.
Qed.

Lemma diskUsageModel_paths (m_sysinfo : QStorageInfo) (mtab : list mntent) :
  map path (diskUsageModel m_sysinfo mtab) = workingPaths mtab.
Proof. unfold diskUsageModel. rewrite map_map. apply map_id. Qed.

Lemma Subsequence_nil {A : Type} (l : list A) : Subsequence [] l.
Proof. induction l; constructor; assumption. Qed.

Lemma Subsequence_one {A : Type} (x : A) (l : list A) :
  In x l -> Subsequence [x] l.
Proof.
  induction l as [|y l IH]; [intros [] | intros [E | I]].
  - subst. apply SubKeep, Subsequence_nil.
  - apply SubSkip, IH, I.
Qed.

(** * The claims *)

(** ** parseReleaseFile *)

(** C1. A line with a key of the pattern and an empty value, [EMPTY=] or a
    bare [EMPTY], is not parsed to the entry EMPTY with the empty string:
    the quote check reads [value.at(0)] of the empty value, outside the range
    [QString::at] allows, and the scenario file of the specification, which
    ends in the line [EMPTY=], gives no mapping. *)
Theorem empty_value_reads_out_of_range :
  unquote (QString.trimmed []) = AssertFailed /\
  parseLine (QS "EMPTY=") = AssertFailed /\
  parseLine (QS "EMPTY") = AssertFailed /\
  parseReleaseFile (oneFile (QS "/etc/os-release") scenario)
                   (QS "/etc/os-release") = AssertFailed.
Proof. repeat split; vm_compute; reflexivity. Qed.

(** C2. A value that is one quote character alone is not rejected as a
    quoting error: its first and its last character are the same character,
    the check passes, and the key is stored with the empty string. *)
Theorem lone_quote_is_stored :
  parseLine (QS "KEY=" ++ [doubleQuote]) = Ok (Assign (QS "KEY") []) /\
  parseLine (QS "KEY=" ++ [singleQuote]) = Ok (Assign (QS "KEY") []) /\
  parseReleaseFile (oneFile (QS "/etc/os-release")
                            (QS "KEY=" ++ [doubleQuote; newline]))
                   (QS "/etc/os-release") = Ok [(QS "KEY", [])].
Proof. repeat split; vm_compute; reflexivity. Qed.

(** C5. The trimming step removes whitespace in front of the raw value too:
    the line [KEY=  x] stores x, where trimming at the end only would store
    the two spaces and x. *)
Theorem leading_whitespace_is_trimmed :
  parseLine (QS "KEY=  x") = Ok (Assign (QS "KEY") (QS "x")) /\
  QString.trimmed (QS "  x") = QS "x" /\
  trimTrailing (QS "  x") = QS "  x".
Proof. repeat split; vm_compute; reflexivity. Qed.

(** C7. The parser has a path on which it returns no mapping: a release
    file with a line [EMPTY=] stops it at [value.at(0)], and with it
    [softwareVersion] and [adaptationVersion]. *)
Theorem accessors_stop_on_empty_value :
  parseReleaseFile (oneFile (QS "/etc/os-release") (QS "EMPTY="))
                   (QS "/etc/os-release") = AssertFailed /\
  softwareVersion (oneFile (QS "/etc/os-release") (QS "EMPTY="))
  = AssertFailed /\
  adaptationVersion (oneFile (QS "/etc/hw-release") (QS "EMPTY="))
  = AssertFailed.
Proof. repeat split; vm_compute; reflexivity. Qed.

(** C8. A line whose key does not match the identifier pattern as a whole is
    discarded and the next line is read; and no key of a mapping that
    [parseReleaseFile] returns fails the identifier syntax. *)
Theorem invalid_keys_are_discarded (fs : FileSystem) (filename : QString)
  (release : QMap.t) (line : QString) (lines : list QString) (result : QMap.t) :
  (QString.startsWith line (ch "#") = false ->
   identifierSyntax (QString.section line (ch "=") 0 0) = false ->
   parseLine line = Ok InvalidKey /\
   parseLines (line :: lines) result = parseLines lines result) /\
  (parseReleaseFile fs filename = Ok release ->
   forall key, In key (QMap.keys release) -> identifierSyntax key = true).
Proof.
  split.
  - intros C K. assert (E := parseLine_invalid line C K).
    split; [exact E | ]. apply (parseLines_skip _ _ _ _ E). discriminate.
  - unfold parseReleaseFile. intros P.
    destruct (fs filename) as [ | | text].
    + injection P as <-. intros key [].
    + injection P as <-. intros key [].
    + apply (parseLines_keys _ _ _ P). intros key [].
Qed.

Lemma invalid_keys_are_discarded_witness :
  (parseLine (QS "BAD-KEY=x") = Ok InvalidKey /\
   parseLines [QS "BAD-KEY=x"; QS "A=b"] QMap.empty
   = parseLines [QS "A=b"] QMap.empty) /\
  (forall key, In key (QMap.keys [(QS "VERSION", QS "1.2.3")]) ->
               identifierSyntax key = true).
Proof.
  destruct (invalid_keys_are_discarded
              (oneFile (QS "/etc/os-release") scenarioWithoutEmpty)
              (QS "/etc/os-release") [(QS "VERSION", QS "1.2.3")]
              (QS "BAD-KEY=x") [QS "A=b"] QMap.empty) as [A B].
  split.
  - apply A; vm_compute; reflexivity.
  - apply B. vm_compute. reflexivity.
Defined.

(** C9. The value stored for a line is the value after quote handling with
    every backslash and the character after it replaced by that character,
    once, from left to right and without overlap; the line [KEY=a\Qb], Q
    the double quote, stores aQb. *)
Theorem escapes_are_replaced (text line key value : QString) :
  In line (readLines text) ->
  parseLine line = Ok (Assign key value) ->
  (exists v,
     unquote (QString.trimmed (QString.section line (ch "=") 1 (-1)))
     = Ok (Some v) /\
     value = unescape v /\
     Unescaped v value /\
     forall w, Unescaped v w -> w = value) /\
  parseLine (QS "KEY=a\" ++ [doubleQuote] ++ QS "b")
  = Ok (Assign (QS "KEY") (QS "a" ++ [doubleQuote] ++ QS "b")).
Proof.
  intros I P. split; [ | vm_compute; reflexivity].
  apply parseLine_Assign in P as (_ & _ & v & U & ->).
  exists v. split; [exact U | ]. split; [reflexivity | ].
  assert (Un : Unescaped v (unescape v)).
  { apply unescape_Unescaped. intros Nl.
    apply (readLines_no_newline text line I).
    apply section_value_incl, trimmed_incl.
    apply (unquote_incl _ _ _ U Nl). }
  split; [exact Un | ].
  intros w Hw. apply (Unescaped_functional v); assumption.
Qed.

Lemma escapes_are_replaced_witness :
  (exists v,
     unquote (QString.trimmed
                (QString.section (QS "KEY=a\\b\c\") (ch "=") 1 (-1)))
     = Ok (Some v) /\
     QS "a\bc\" = unescape v /\
     Unescaped v (QS "a\bc\") /\
     forall w, Unescaped v w -> w = QS "a\bc\") /\
  parseLine (QS "KEY=a\" ++ [doubleQuote] ++ QS "b")
  = Ok (Assign (QS "KEY") (QS "a" ++ [doubleQuote] ++ QS "b")).
Proof.
  apply (escapes_are_replaced (QS "KEY=a\\b\c\") (QS "KEY=a\\b\c\")
                              (QS "KEY") (QS "a\bc\")).
  - vm_compute. left. reflexivity.
  - vm_compute. reflexivity.
Defined.

(** ** diskUsageModel *)

Lemma candidate_in_workingPaths (mtab : list mntent) (candidate : QString) :
  In candidate candidates ->
  (In candidate (workingPaths mtab) <-> eligible (mountDevices mtab) candidate).
Proof.
  intros C. rewrite workingPaths_In.
  assert (R : candidate <> QS "/") by (intros ->; apply root_not_candidate, C).
  tauto.
Qed.

Lemma eligible_rows (m_sysinfo : QStorageInfo) (mtab : list mntent)
  (candidate : QString) :
  In candidate candidates -> eligible (mountDevices mtab) candidate ->
  typesAndPaths (diskUsageModel m_sysinfo mtab)
  = [(QS "system", QS "/"); (QS "user", candidate)].
Proof.
  intros [<- | []] E.
  destruct (workingPaths_cases mtab) as [[_ N] | [W _]]; [tauto | ].
  unfold typesAndPaths, diskUsageModel. rewrite W. reflexivity.
Qed.

Lemma readMounts_find (mtab : list mntent) (devices : QMap.t)
  (mountpoint : QString) :
  QMap.find (readMounts mtab devices) mountpoint
  = lastDevice mtab mountpoint (QMap.find devices mountpoint).
Proof.
  revert devices; induction mtab as [|entry mtab IH]; intros devices; simpl.
  - reflexivity.
  - rewrite IH. f_equal.
    destruct (QString.eqb (fromLatin1 (mnt_dir entry)) mountpoint) eqn:E.
    + apply QString_eqb_eq in E. subst mountpoint.
      apply QMap_find_insert_eq.
    + apply QString_eqb_neq in E. apply QMap_find_insert_ne. congruence.
Qed.

(** The device map holds, for every mountpoint, the device source that the
    mount table gives it. *)
Lemma mountDevices_find (mtab : list mntent) (mountpoint : QString) :
  QMap.find (mountDevices mtab) mountpoint = deviceSource mtab mountpoint.
Proof. apply readMounts_find. Qed.

Lemma eligible_in_table (mtab : list mntent) (candidate : QString) :
  eligible (mountDevices mtab) candidate <->
  exists device,
    deviceSource mtab candidate = Some device /\ device <> rootSource mtab.
Proof.
  unfold eligible, QMap.contains, QMap.value, rootSource.
  rewrite !mountDevices_find.
  destruct (deviceSource mtab candidate) as [device | ].
  - split.
    + intros [_ D]. exists device. auto.
    + intros (d & E & D). injection E as <-. auto.
  - split; [intros [H _]; discriminate H | intros (d & E & _); discriminate E].
Qed.

Lemma ineligible_rows (m_sysinfo : QStorageInfo) (mtab : list mntent)
  (candidate : QString) :
  In candidate candidates -> ~ eligible (mountDevices mtab) candidate ->
  typesAndPaths (diskUsageModel m_sysinfo mtab) = [(QS "mass", QS "/")].
Proof.
  intros [<- | []] N.
  destruct (workingPaths_cases mtab) as [[W _] | [_ E]]; [ | tauto].
  unfold typesAndPaths, diskUsageModel. rewrite W. reflexivity.
Qed.

(** C3. A candidate mountpoint is in the working path list, and has a row in
    the model, exactly when the mount table has an entry for it and the
    device source of its last entry differs from the device source of the
    root (the empty string when the table has no entry for the root); the
    device map that decides this holds the device sources of the table.  A
    candidate on the device of the root has no row, the model is the one row
    mass for the root; a candidate on another device gives the rows system
    for the root and user for the candidate. *)
Theorem candidate_reported_iff (m_sysinfo : QStorageInfo)
  (mtab : list mntent) (candidate : QString) :
  In candidate candidates ->
  (forall mountpoint,
      QMap.find (mountDevices mtab) mountpoint = deviceSource mtab mountpoint) /\
  (QMap.contains (mountDevices mtab) candidate = true <->
   In candidate (mountpoints mtab)) /\
  (In candidate (workingPaths mtab) <-> eligible (mountDevices mtab) candidate) /\
  (In candidate (workingPaths mtab) <->
   exists device,
     deviceSource mtab candidate = Some device /\ device <> rootSource mtab) /\
  (In candidate (map path (diskUsageModel m_sysinfo mtab)) <->
   exists device,
     deviceSource mtab candidate = Some device /\ device <> rootSource mtab) /\
  (deviceSource mtab candidate = Some (rootSource mtab) ->
   ~ In candidate (map path (diskUsageModel m_sysinfo mtab)) /\
   typesAndPaths (diskUsageModel m_sysinfo mtab) = [(QS "mass", QS "/")]) /\
  (forall device,
      deviceSource mtab candidate = Some device -> device <> rootSource mtab ->
      typesAndPaths (diskUsageModel m_sysinfo mtab)
      = [(QS "system", QS "/"); (QS "user", candidate)]).
Proof.
  intros C.
  assert (Iff := candidate_in_workingPaths mtab candidate C).
  assert (Tab := eligible_in_table mtab candidate).
  split; [apply mountDevices_find | ].
  split; [rewrite QMap_contains_In; apply mountDevices_keys | ].
  split; [exact Iff | ].
  split; [rewrite Iff; exact Tab | ].
  split; [rewrite diskUsageModel_paths, Iff; exact Tab | ].
  split.
  - intros Same.
    assert (N : ~ eligible (mountDevices mtab) candidate).
    { rewrite Tab. intros (device & E & D). rewrite Same in E.
      injection E as E. congruence. }
    split; [rewrite diskUsageModel_paths, Iff; exact N | ].
    apply (ineligible_rows m_sysinfo mtab candidate C N).
  - intros device E D. apply eligible_rows; [exact C | ].
    apply Tab. exists device. auto.
Qed.

Lemma candidate_reported_iff_witness :
  typesAndPaths (diskUsageModel storage8G rootAndHome)
  = [(QS "system", QS "/"); (QS "user", QS "/home")] /\
  (~ In (QS "/home") (map path (diskUsageModel storage8G homeOnRoot)) /\
   typesAndPaths (diskUsageModel storage8G homeOnRoot) = [(QS "mass", QS "/")]) /\
  QMap.find (mountDevices rootAndHome) (QS "/home")
  = Some (QS "/dev/mmcblk0p2").
Proof.
  assert (C : In (QS "/home") candidates) by (left; reflexivity).
  split; [ | split].
  - apply (proj2 (proj2 (proj2 (proj2 (proj2 (proj2
             (candidate_reported_iff storage8G rootAndHome (QS "/home") C)))))))
      with (device := QS "/dev/mmcblk0p2").
    + vm_compute. reflexivity.
    + vm_compute. discriminate.
  - apply (proj1 (proj2 (proj2 (proj2 (proj2 (proj2
             (candidate_reported_iff storage8G homeOnRoot (QS "/home") C))))))).
    vm_compute. reflexivity.
  - rewrite (proj1 (candidate_reported_iff storage8G rootAndHome (QS "/home") C)).
    vm_compute. reflexivity.
Defined.

(** C4. When the working path list has one entry, the model is the one row
    of the root with the storage type mass; otherwise the model is the row
    of the root with the type system, followed by one row of the type user
    for every other path of the list, and there is such a path. *)
Theorem storageType_per_path (m_sysinfo : QStorageInfo) (mtab : list mntent) :
  (length (workingPaths mtab) = 1%nat ->
   typesAndPaths (diskUsageModel m_sysinfo mtab) = [(QS "mass", QS "/")]) /\
  (length (workingPaths mtab) <> 1%nat ->
   (exists other rest,
      workingPaths mtab = QS "/" :: other :: rest /\
      ~ In (QS "/") (other :: rest) /\
      typesAndPaths (diskUsageModel m_sysinfo mtab)
      = (QS "system", QS "/")
          :: map (fun p => (QS "user", p)) (other :: rest)) /\
   forall row, In row (diskUsageModel m_sysinfo mtab) ->
     (path row = QS "/" -> storageType row = QS "system") /\
     (path row <> QS "/" -> storageType row = QS "user")).
Proof.
  split.
  - intros L. unfold typesAndPaths, diskUsageModel. rewrite map_map.
    cbn [storageType path]. unfold storageTypeOf. rewrite L.
    rewrite workingPaths_filter in L |- *.
    destruct (filter _ _); [reflexivity | discriminate L].
  - intros L. split.
    + assert (N := workingPaths_NoDup mtab).
      unfold typesAndPaths, diskUsageModel. rewrite map_map.
      cbn [storageType path]. unfold storageTypeOf.
      destruct (Nat.eqb_spec (length (workingPaths mtab)) 1); [contradiction | ].
      rewrite workingPaths_filter in L, N |- *.
      destruct (filter _ _) as [|other rest]; [simpl in L; congruence | ].
      exists other, rest. split; [reflexivity | ].
      inversion N as [ | ? ? NI _]; subst. split; [exact NI | ].
      rewrite map_cons, QString_eqb_refl. f_equal.
      apply map_ext_in. intros p I.
      destruct (QString.eqb p (QS "/")) eqn:E; [ | reflexivity].
      apply QString_eqb_eq in E. subst p. contradiction.
    + intros row I. unfold diskUsageModel in I.
      apply in_map_iff in I as (p & <- & _). cbn [storageType path].
      unfold storageTypeOf.
      destruct (Nat.eqb_spec (length (workingPaths mtab)) 1); [contradiction | ].
      split.
      * intros ->. reflexivity.
      * intros N. apply QString_eqb_neq in N. rewrite N. reflexivity.
Qed.

Lemma storageType_per_path_witness :
  typesAndPaths (diskUsageModel storage8G rootOnly) = [(QS "mass", QS "/")] /\
  typesAndPaths (diskUsageModel storage8G rootAndHome)
  = [(QS "system", QS "/"); (QS "user", QS "/home")].
Proof.
  split.
  - apply (proj1 (storageType_per_path storage8G rootOnly)).
    vm_compute. reflexivity.
  - destruct (proj2 (storageType_per_path storage8G rootAndHome))
      as [(other & rest & W & _ & T) _].
    + vm_compute. discriminate.
    + vm_compute in W. injection W as <- <-. exact T.
Defined.

(** C6. The model has one row for each path of the working list, in its
    order; the row of the root is the first and the only one with its path,
    no path occurs twice, and the rows after it are candidate mountpoints in
    the order of the mount table. *)
Theorem rows_follow_working_paths (m_sysinfo : QStorageInfo)
  (mtab : list mntent) :
  map path (diskUsageModel m_sysinfo mtab) = workingPaths mtab /\
  length (diskUsageModel m_sysinfo mtab) = length (workingPaths mtab) /\
  NoDup (map path (diskUsageModel m_sysinfo mtab)) /\
  exists rest,
    map path (diskUsageModel m_sysinfo mtab) = QS "/" :: rest /\
    ~ In (QS "/") rest /\
    (forall p, In p rest -> In p candidates) /\
    Subsequence rest (mountpoints mtab).
Proof.
  rewrite diskUsageModel_paths.
  split; [reflexivity | ].
  split; [unfold diskUsageModel; apply length_map | ].
  split; [apply workingPaths_NoDup | ].
  destruct (workingPaths_cases mtab) as [[W _] | [W [K _]]]; rewrite W.
  - exists []. split; [reflexivity | ]. split; [intros [] | ].
    split; [intros p [] | apply Subsequence_nil].
  - exists [QS "/home"]. split; [reflexivity | ].
    split; [intros [H | []]; discriminate H | ].
    split; [intros p [<- | []]; left; reflexivity | ].
    apply Subsequence_one, mountDevices_keys, QMap_contains_In, K.
Qed.



(** * Further properties of the code *)

(** ** parseReleaseFile: when it returns, and what *)

(** X1. [parseReleaseFile] returns a mapping for every file that cannot be
    opened, and for every file in which no line that is not a comment and has
    a key of the pattern has an empty value after trimming. *)
Theorem parseReleaseFile_returns (fs : FileSystem) (filename : QString) :
  (forall text line,
      fs filename = Readable text -> In line (readLines text) ->
      QString.startsWith line (ch "#") = false ->
      identifierSyntax (QString.section line (ch "=") 0 0) = true ->
      QString.trimmed (QString.section line (ch "=") 1 (-1)) <> []) ->
  exists release, parseReleaseFile fs filename = Ok release.
Proof.
  intros H. unfold parseReleaseFile.
  destruct (fs filename) as [ | | text] eqn:F.
  - exists QMap.empty. reflexivity.
  - exists QMap.empty. reflexivity.
  - apply parseLines_returns. intros line I A.
    apply parseLine_AssertFailed in A as (C & K & T).
    apply (H text line eq_refl I C K T).
Qed.

Lemma parseReleaseFile_returns_witness :
  exists release,
    parseReleaseFile (oneFile (QS "/etc/os-release") scenarioWithoutEmpty)
                     (QS "/etc/os-release") = Ok release.
Proof.
  apply parseReleaseFile_returns.
  intros text line F I. vm_compute in F. injection F as <-.
  vm_compute in I.
  repeat (destruct I as [<- | I]; [vm_compute; intros; discriminate | ]).
  destruct I.
Defined.

Lemma parseLines_find (lines : list QString) (m m' : QMap.t) (key : QString) :
  parseLines lines m = Ok m' ->
  QMap.find m' key = lastAssigned key lines (QMap.find m key).
Proof.
  revert m; induction lines as [|line lines IH]; intros m E; simpl in E |- *.
  - injection E as <-. reflexivity.
  - destruct (parseLine line) as [r | ]; [ | discriminate].
    cbn [bind] in E. destruct r; try (apply (IH m E)).
    rewrite (IH _ E).
    destruct (QString.eqb key key0) eqn:K.
    + apply QString_eqb_eq in K; subst key0.
      rewrite QMap_find_insert_eq. reflexivity.
    + apply QString_eqb_neq in K.
      rewrite QMap_find_insert_ne by exact K. reflexivity.
Qed.

(** X2. In the mapping that [parseReleaseFile] returns, a key has the value
    of the last line of the file that assigns it, and a key that no line
    assigns is absent. *)
Theorem last_assignment_wins (fs : FileSystem) (filename text : QString)
  (release : QMap.t) (key : QString) :
  fs filename = Readable text ->
  parseReleaseFile fs filename = Ok release ->
  QMap.find release key = lastAssigned key (readLines text) None.
Proof.
  intros F. unfold parseReleaseFile. rewrite F. intros P.
  apply (parseLines_find _ _ _ key P).
Qed.

Lemma last_assignment_wins_witness :
  QMap.find [(QS "A", QS "3"); (QS "B", QS "2")] (QS "A")
  = lastAssigned (QS "A")
      (readLines (QS "A=1" ++ [newline] ++ QS "B=2" ++ [newline] ++ QS "A=3"))
      None.
Proof.
  apply (last_assignment_wins
           (oneFile (QS "/etc/os-release")
              (QS "A=1" ++ [newline] ++ QS "B=2" ++ [newline] ++ QS "A=3"))
           (QS "/etc/os-release")).
  - vm_compute. reflexivity.
  - vm_compute. reflexivity.
Defined.

Lemma parseLines_ascending (lines : list QString) (m m' : QMap.t) :
  parseLines lines m = Ok m' ->
  Ascending (QMap.keys m) -> Ascending (QMap.keys m').
Proof.
  revert m; induction lines as [|line lines IH]; intros m E A; simpl in E.
  - injection E as <-. exact A.
  - destruct (parseLine line) as [r | ]; [ | discriminate].
    cbn [bind] in E. destruct r; try (apply (IH m E A)).
    apply (IH _ E), QMap_insert_ascending, A.
Qed.

(** X3. The keys of a mapping that [parseReleaseFile] returns are in
    strictly ascending order; no key occurs twice. *)
Theorem release_keys_unique (fs : FileSystem) (filename : QString)
  (release : QMap.t) :
  parseReleaseFile fs filename = Ok release ->
  Ascending (QMap.keys release) /\ NoDup (QMap.keys release).
Proof.
  intros P.
  assert (A : Ascending (QMap.keys release)).
  { unfold parseReleaseFile in P. destruct (fs filename) as [ | | text].
    - injection P as <-. constructor.
    - injection P as <-. constructor.
    - apply (parseLines_ascending _ _ _ P). constructor. }
  split; [exact A | apply Ascending_NoDup, A].
Qed.

Lemma release_keys_unique_witness :
  Ascending (QMap.keys [(QS "A", QS "3"); (QS "B", QS "2")]) /\
  NoDup (QMap.keys [(QS "A", QS "3"); (QS "B", QS "2")]).
Proof.
  apply (release_keys_unique
           (oneFile (QS "/etc/os-release")
              (QS "B=2" ++ [newline] ++ QS "A=1" ++ [newline] ++ QS "A=3"))
           (QS "/etc/os-release")).
  vm_compute. reflexivity.
Defined.

(** X4. A line stores an entry only if it is no comment and begins with a
    key of the pattern that is followed by the end of the line or by [=]; the
    key stored is the text before the first [=] of the line. *)
Theorem stored_line_shape (line key value : QString) :
  parseLine line = Ok (Assign key value) ->
  wellFormedKey key = true /\
  ~ In (ch "=") key /\
  QString.startsWith line (ch "#") = false /\
  (line = key \/ exists raw, line = key ++ ch "=" :: raw).
Proof.
  intros P. destruct (parseLine_Assign _ _ _ P) as (K & S & _).
  rewrite identifierPattern_wellFormed in S. split; [exact S | ].
  split; [apply wellFormedKey_no_eq, S | ].
  split.
  - destruct (QString.startsWith line (ch "#")) eqn:C; [ | reflexivity].
    rewrite parseLine_comment in P by exact C. discriminate P.
  - destruct (first_sep (ch "=") line) as [N | (k & raw & -> & N)].
    + left. rewrite section_key_bare in K by exact N. auto.
    + right. rewrite section_key in K by exact N. subst k.
      exists raw. reflexivity.
Qed.

Lemma stored_line_shape_witness :
  wellFormedKey (QS "VERSION_ID") = true /\
  ~ In (ch "=") (QS "VERSION_ID") /\
  QString.startsWith (QS "VERSION_ID= 1=2 ") (ch "#") = false /\
  (QS "VERSION_ID= 1=2 " = QS "VERSION_ID" \/
   exists raw, QS "VERSION_ID= 1=2 " = QS "VERSION_ID" ++ ch "=" :: raw).
Proof.
  apply (stored_line_shape (QS "VERSION_ID= 1=2 ") (QS "VERSION_ID") (QS "1=2")).
  vm_compute. reflexivity.
Defined.

(** ** parseReleaseFile: whitespace, quotes and escapes *)

Lemma trimmed_leading_all (ws s : QString) :
  forallb QChar.isSpace ws = true ->
  QString.trimmed (ws ++ s) = QString.trimmed s.
Proof.
  induction ws as [|c ws IH]; simpl; intros H; [reflexivity | ].
  apply andb_true_iff in H as [Hc Hw].
  rewrite trimmed_leading by exact Hc. apply IH, Hw.
Qed.

Lemma trimmed_trailing_all (s ws : QString) :
  forallb QChar.isSpace ws = true ->
  QString.trimmed (s ++ ws) = QString.trimmed s.
Proof.
  induction ws as [|c ws IH] using rev_ind; intros H.
  - rewrite app_nil_r. reflexivity.
  - rewrite forallb_app in H. apply andb_true_iff in H as [Hw Hc].
    simpl in Hc. rewrite andb_true_r in Hc.
    rewrite app_assoc, trimmed_trailing by exact Hc. apply IH, Hw.
Qed.

(** X5. Whitespace between the [=] and the value and whitespace behind the
    value do not change what a line does. *)
Theorem surrounding_whitespace_ignored (key raw before behind : QString) :
  ~ In (ch "=") key ->
  forallb QChar.isSpace before = true ->
  forallb QChar.isSpace behind = true ->
  parseLine (key ++ ch "=" :: before ++ raw ++ behind)
  = parseLine (key ++ ch "=" :: raw).
Proof.
  intros N B1 B2. unfold parseLine.
  assert (S : forall rest, QString.startsWith (key ++ ch "=" :: rest) (ch "#")
                           = QString.startsWith (key ++ [ch "="]) (ch "#")).
  { intros rest. destruct key; reflexivity. }
  rewrite (S raw), (S (before ++ raw ++ behind)).
  rewrite !section_key, !section_value by exact N.
  rewrite trimmed_leading_all, trimmed_trailing_all by assumption.
  reflexivity.
Qed.

Lemma surrounding_whitespace_ignored_witness :
  parseLine (QS "NAME" ++ ch "=" :: QS "  " ++ QS "'a b'" ++ QS " ")
  = parseLine (QS "NAME" ++ ch "=" :: QS "'a b'").
Proof.
  apply (surrounding_whitespace_ignored (QS "NAME") (QS "'a b'") (QS "  ") (QS " ")).
  - vm_compute. intuition discriminate.
  - reflexivity.
  - reflexivity.
Defined.

Lemma unescape_cons_plain (c : QChar) (v : QString) :
  c <> backslash -> unescape (c :: v) = c :: unescape v.
Proof.
  intros B. destruct v as [|d v]; [reflexivity | ].
  rewrite unescape_cons2. unfold QChar.eqb at 1.
  destruct (N.eqb_spec c backslash); [congruence | reflexivity].
Qed.

Lemma unescape_escaped (value : QString) : unescape (escaped value) = value.
Proof.
  induction value as [|c value IH]; [reflexivity | ].
  unfold escaped in *. cbn [flat_map].
  destruct (isQuote c || QChar.eqb c backslash)%bool eqn:E.
  - cbn [app]. rewrite unescape_cons2.
    assert (D : dot c = true).
    { apply dot_true. intros ->. discriminate E. }
    unfold QChar.eqb at 1. rewrite N.eqb_refl, D. cbn [andb].
    rewrite IH. reflexivity.
  - cbn [app]. rewrite unescape_cons_plain, IH; [reflexivity | ].
    intros ->. discriminate E.
Qed.

(** X6. Every value can be written so that it is read back: a line with a
    key of the pattern, [=] and the value with its quotes and backslashes
    escaped, between two equal quotes, stores the key with that value. *)
Theorem quoted_value_round_trip (key value : QString) (q : QChar) :
  wellFormedKey key = true -> isQuote q = true ->
  parseLine (key ++ ch "=" :: q :: escaped value ++ [q])
  = Ok (Assign key value).
Proof.
  intros W Q.
  assert (Sp : QChar.isSpace q = false).
  { unfold isQuote, QChar.eqb in Q. apply orb_true_iff in Q.
    destruct Q as [Q | Q]; apply N.eqb_eq in Q; subst q; reflexivity. }
  rewrite (parseLine_quoted key _ q (escaped value) W); [ | | exact Q].
  - rewrite unescape_escaped. reflexivity.
  - apply trimmed_id; exact Sp.
Qed.

Lemma quoted_value_round_trip_witness :
  parseLine (QS "PRETTY_NAME" ++ ch "=" :: doubleQuote
               :: escaped (QS "a 'b' \ = # c ") ++ [doubleQuote])
  = Ok (Assign (QS "PRETTY_NAME") (QS "a 'b' \ = # c ")).
Proof.
  apply (quoted_value_round_trip (QS "PRETTY_NAME") (QS "a 'b' \ = # c ")
                                 doubleQuote); reflexivity.
Defined.

(** X7. A value that is written without quotes, has no whitespace at either
    end, does not start with a quote and has no backslash is stored as it is
    written, whatever further [=] or [#] it contains. *)
Theorem plain_value_stored_verbatim (key : QString) (c : QChar)
  (value : QString) :
  wellFormedKey key = true ->
  QString.trimmed (c :: value) = c :: value ->
  isQuote c = false -> ~ In backslash (c :: value) ->
  parseLine (key ++ ch "=" :: c :: value) = Ok (Assign key (c :: value)).
Proof.
  intros W T Q B.
  rewrite (parseLine_unquoted key _ c value W T Q).
  rewrite unescape_plain by exact B. reflexivity.
Qed.

Lemma plain_value_stored_verbatim_witness :
  parseLine (QS "HOME_URL" ++ ch "=" :: ch "h" :: QS "ttps://x.org/?a=b#c")
  = Ok (Assign (QS "HOME_URL") (ch "h" :: QS "ttps://x.org/?a=b#c")).
Proof.
  apply (plain_value_stored_verbatim (QS "HOME_URL") (ch "h")
                                     (QS "ttps://x.org/?a=b#c")).
  - reflexivity.
  - vm_compute. reflexivity.
  - reflexivity.
  - vm_compute. intuition discriminate.
Defined.

(** X8. Comment lines contribute nothing: a file parses as it does with the
    lines that start with [#] left out. *)
Theorem comments_contribute_nothing (lines : list QString) (m : QMap.t) :
  parseLines (filter (fun line => negb (QString.startsWith line (ch "#"))) lines) m
  = parseLines lines m.
Proof.
  revert m; induction lines as [|line lines IH]; intros m; [reflexivity | ].
  cbn [filter]. destruct (QString.startsWith line (ch "#")) eqn:C; cbn [negb].
  - rewrite IH. symmetry.
    apply (parseLines_skip _ _ _ _ (parseLine_comment line C)). discriminate.
  - simpl. destruct (parseLine line) as [r | ]; [ | reflexivity].
    cbn [bind]. destruct r; apply IH.
Qed.

(** ** parseReleaseFile: sizes *)

Lemma dropSpaces_length (s : QString) :
  (length (QString.dropSpaces s) <= length s)%nat.
Proof.
  induction s as [|c s IH]; simpl; [lia | ].
  destruct (QChar.isSpace c); simpl; lia.
Qed.

Lemma trimmed_length (s : QString) :
  (length (QString.trimmed s) <= length s)%nat.
Proof.
  unfold QString.trimmed. rewrite length_rev.
  assert (A := dropSpaces_length (rev (QString.dropSpaces s))).
  rewrite length_rev in A. assert (B := dropSpaces_length s). lia.
Qed.

Lemma unescape_length (v : QString) : (length (unescape v) <= length v)%nat.
Proof.
  assert (G : forall n v, (length v <= n)%nat ->
                          (length (unescape v) <= length v)%nat).
  { clear v. induction n as [|n IH]; intros v L.
    - destruct v; [simpl; lia | simpl in L; lia].
    - destruct v as [|c [|d v]]; [simpl; lia | simpl; lia | ].
      rewrite unescape_cons2.
      destruct (QChar.eqb c backslash && dot d)%bool.
      + assert (H := IH v ltac:(simpl in L; lia)). simpl in H |- *. lia.
      + assert (H := IH (d :: v) ltac:(simpl in L |- *; lia)).
        simpl in H |- *. lia. }
  apply (G (length v)). lia.
Qed.

Lemma unquote_length (value v : QString) :
  unquote value = Ok (Some v) -> (length v <= length value)%nat.
Proof.
  destruct value as [|q s]; [discriminate | ].
  destruct (isQuote q) eqn:Q.
  - destruct (rev s) as [|d r] eqn:R;
      apply (f_equal (@rev _)) in R; rewrite rev_involutive in R;
      simpl in R; subst s.
    + rewrite unquote_single by exact Q. intros E; injection E as <-.
      simpl; lia.
    + destruct (N.eq_dec d q) as [-> | N].
      * rewrite unquote_matched by exact Q. intros E; injection E as <-.
        simpl. rewrite length_app. lia.
      * rewrite unquote_mismatched by assumption. discriminate.
  - rewrite unquote_plain by exact Q. intros E; injection E as <-. lia.
Qed.

(** X9. The key and the value that a line stores are together not longer
    than the line, and shorter when the line has a [=]: neither trimming, nor
    the removal of quotes, nor the replacement of escapes adds a
    character. *)
Theorem stored_entry_fits_line (line key value : QString) :
  parseLine line = Ok (Assign key value) ->
  (length key + length value <= length line)%nat /\
  (In (ch "=") line -> (length key + length value < length line)%nat).
Proof.
  intros P. destruct (parseLine_Assign _ _ _ P) as (K & _ & v & U & ->).
  assert (A := unescape_length v).
  assert (B := unquote_length _ _ U).
  assert (C := trimmed_length (QString.section line (ch "=") 1 (-1))).
  destruct (first_sep (ch "=") line) as [N | (k & raw & -> & N)].
  - rewrite section_key_bare in K by exact N.
    rewrite section_value_bare in B, C by exact N. subst key.
    change (QString.trimmed []) with (@nil QChar) in B.
    simpl in B. split; [lia | contradiction].
  - rewrite section_key in K by exact N.
    rewrite section_value in B, C by exact N. subst k.
    rewrite length_app. simpl. split; intros; lia.
Qed.

Lemma stored_entry_fits_line_witness :
  (length (QS "ID") + length (QS "a b") <= length (QS "ID=  'a\ b' "))%nat /\
  (In (ch "=") (QS "ID=  'a\ b' ") ->
   (length (QS "ID") + length (QS "a b") < length (QS "ID=  'a\ b' "))%nat).
Proof.
  apply (stored_entry_fits_line (QS "ID=  'a\ b' ")).
  vm_compute. reflexivity.
Defined.

(** ** softwareVersion, adaptationVersion and serial *)

Lemma version_of_release (fs : FileSystem) (filename text key : QString)
  (release : QMap.t) :
  fs filename = Readable text ->
  parseReleaseFile fs filename = Ok release ->
  snd (QMap.index release key)
  = match lastAssigned key (readLines text) None with
    | Some value => value
    | None => []
    end.
Proof.
  intros F P. rewrite QMap_index_value. unfold QMap.value.
  unfold parseReleaseFile in P. rewrite F in P.
  rewrite (parseLines_find _ _ _ key P). reflexivity.
Qed.

(** X10. When no line of the release file assigns an empty value, the
    version accessors return the value of the last line that assigns their
    key, VERSION in /etc/os-release and VERSION_ID in /etc/hw-release, and
    the empty string when no line does. *)
Theorem versions_read_last_assignment (fs : FileSystem) (os hw : QString) :
  fs (QS "/etc/os-release") = Readable os ->
  fs (QS "/etc/hw-release") = Readable hw ->
  (forall line, In line (readLines os) -> parseLine line <> AssertFailed) ->
  (forall line, In line (readLines hw) -> parseLine line <> AssertFailed) ->
  softwareVersion fs
  = Ok (match lastAssigned (QS "VERSION") (readLines os) None with
        | Some value => value
        | None => []
        end) /\
  adaptationVersion fs
  = Ok (match lastAssigned (QS "VERSION_ID") (readLines hw) None with
        | Some value => value
        | None => []
        end).
Proof.
  intros Fo Fh Oo Oh.
  destruct (parseLines_returns _ QMap.empty Oo) as [mo Po].
  destruct (parseLines_returns _ QMap.empty Oh) as [mh Ph].
  assert (Ro : parseReleaseFile fs (QS "/etc/os-release") = Ok mo).
  { unfold parseReleaseFile. rewrite Fo. exact Po. }
  assert (Rh : parseReleaseFile fs (QS "/etc/hw-release") = Ok mh).
  { unfold parseReleaseFile. rewrite Fh. exact Ph. }
  split.
  - unfold softwareVersion. rewrite Ro. cbn [bind]. f_equal.
    apply (version_of_release fs _ os _ _ Fo Ro).
  - unfold adaptationVersion. rewrite Rh. cbn [bind]. f_equal.
    apply (version_of_release fs _ hw _ _ Fh Rh).
Qed.

(** X11. When the release file cannot be opened, because it is missing or
    unreadable, the version accessors return the empty string. *)
Theorem versions_without_file (fs : FileSystem) :
  (forall text, fs (QS "/etc/os-release") <> Readable text) ->
  (forall text, fs (QS "/etc/hw-release") <> Readable text) ->
  softwareVersion fs = Ok [] /\ adaptationVersion fs = Ok [].
Proof.
  intros Ho Hh. unfold softwareVersion, adaptationVersion.
  rewrite !parseReleaseFile_unopened by assumption. split; reflexivity.
Qed.

Lemma versions_without_file_witness :
  softwareVersion (fun _ => Unreadable) = Ok [] /\
  adaptationVersion (fun _ => Unreadable) = Ok [].
Proof.
  apply (versions_without_file (fun _ => Unreadable)); discriminate.
Defined.

Lemma dropSpaces_head (s : QString) (c : QChar) (r : QString) :
  QString.dropSpaces s = c :: r -> QChar.isSpace c = false.
Proof.
  induction s as [|x s IH]; simpl; [discriminate | ].
  destruct (QChar.isSpace x) eqn:X; [exact IH | ].
  intros E; injection E as <- _. exact X.
Qed.

Lemma dropSpaces_suffix (s : QString) :
  exists spaces, s = spaces ++ QString.dropSpaces s.
Proof.
  induction s as [|x s [spaces IH]]; simpl; [exists []; reflexivity | ].
  destruct (QChar.isSpace x).
  - exists (x :: spaces). simpl. f_equal. exact IH.
  - exists []. reflexivity.
Qed.

Lemma trimmed_first (s : QString) (c : QChar) (r : QString) :
  QString.trimmed s = c :: r -> QChar.isSpace c = false.
Proof.
  unfold QString.trimmed. intros E.
  destruct (dropSpaces_suffix (rev (QString.dropSpaces s))) as [spaces S].
  apply (f_equal (@rev _)) in E. rewrite rev_involutive in E. simpl in E.
  rewrite E in S. apply (f_equal (@rev _)) in S.
  rewrite rev_involutive, rev_app_distr, rev_app_distr, rev_involutive in S.
  simpl in S. apply (dropSpaces_head _ _ _ S).
Qed.

Lemma trimmed_last (s init : QString) (d : QChar) :
  QString.trimmed s = init ++ [d] -> QChar.isSpace d = false.
Proof.
  unfold QString.trimmed. intros E.
  apply (f_equal (@rev _)) in E.
  rewrite rev_involutive, rev_app_distr in E. simpl in E.
  apply (dropSpaces_head _ _ _ E).
Qed.

(** X12. The serial number has no whitespace at its start and none at its
    end, and it is empty when the serial file is missing or cannot be
    read. *)
Theorem serial_is_trimmed (fs : FileSystem) :
  (forall c rest, serial fs = c :: rest -> QChar.isSpace c = false) /\
  (forall init d, serial fs = init ++ [d] -> QChar.isSpace d = false) /\
  ((forall text, fs (QS "/config/serial/serial.txt") <> Readable text) ->
   serial fs = []).
Proof.
  unfold serial. destruct (fs (QS "/config/serial/serial.txt")) as [ | | text].
  - repeat split; try discriminate.
    intros init d E. destruct init; discriminate E.
  - repeat split; try discriminate.
    intros init d E. destruct init; discriminate E.
  - split; [apply trimmed_first | ].
    split; [apply trimmed_last | ].
    intros H. destruct (H text eq_refl).
Qed.

Lemma versions_read_last_assignment_witness :
  softwareVersion (releaseFiles osRelease hwRelease)
  = Ok (match lastAssigned (QS "VERSION") (readLines osRelease) None with
        | Some value => value
        | None => []
        end) /\
  adaptationVersion (releaseFiles osRelease hwRelease)
  = Ok (match lastAssigned (QS "VERSION_ID") (readLines hwRelease) None with
        | Some value => value
        | None => []
        end).
Proof.
  apply (versions_read_last_assignment (releaseFiles osRelease hwRelease)
                                       osRelease hwRelease).
  - reflexivity.
  - reflexivity.
  - intros line I. vm_compute in I.
    repeat (destruct I as [<- | I]; [vm_compute; discriminate | ]).
    destruct I.
  - intros line I. vm_compute in I.
    repeat (destruct I as [<- | I]; [vm_compute; discriminate | ]).
    destruct I.
Defined.

Lemma serial_is_trimmed_witness :
  (forall c rest,
      serial (oneFile (QS "/config/serial/serial.txt") (QS " SN 123  "))
      = c :: rest -> QChar.isSpace c = false) /\
  (forall init d,
      serial (oneFile (QS "/config/serial/serial.txt") (QS " SN 123  "))
      = init ++ [d] -> QChar.isSpace d = false) /\
  ((forall text, oneFile (QS "/config/serial/serial.txt") (QS " SN 123  ")
                   (QS "/config/serial/serial.txt") <> Readable text) ->
   serial (oneFile (QS "/config/serial/serial.txt") (QS " SN 123  ")) = []).
Proof.
  exact (serial_is_trimmed
           (oneFile (QS "/config/serial/serial.txt") (QS " SN 123  "))).
Defined.

(** ** The mount table *)

Lemma readMounts_app (mtab1 mtab2 : list mntent) (devices : QMap.t) :
  readMounts (mtab1 ++ mtab2) devices
  = readMounts mtab2 (readMounts mtab1 devices).
Proof.
  revert devices; induction mtab1 as [|e mtab1 IH]; intros devices; simpl.
  - reflexivity.
  - apply IH.
Qed.

Lemma readMounts_other (mtab : list mntent) (devices : QMap.t) (k : QString) :
  (forall e, In e mtab -> fromLatin1 (mnt_dir e) <> k) ->
  QMap.find (readMounts mtab devices) k = QMap.find devices k.
Proof.
  revert devices; induction mtab as [|e mtab IH]; intros devices H; simpl.
  - reflexivity.
  - rewrite IH by (intros e' I; apply H; right; exact I).
    apply QMap_find_insert_ne. intros E. apply (H e (or_introl eq_refl)).
    symmetry. exact E.
Qed.

(** X13. For a mountpoint with several entries in the mount table, the
    device map holds the device of the last one. *)
Theorem last_mount_entry_wins (mtab1 mtab2 : list mntent) (entry : mntent) :
  (forall e, In e mtab2 -> mnt_dir e <> mnt_dir entry) ->
  QMap.find (mountDevices (mtab1 ++ entry :: mtab2)) (fromLatin1 (mnt_dir entry))
  = Some (fromLatin1 (mnt_fsname entry)).
Proof.
  intros H. unfold mountDevices.
  rewrite readMounts_app. cbn [readMounts].
  rewrite readMounts_other.
  - apply QMap_find_insert_eq.
  - intros e I E. apply (H e I), fromLatin1_inj, E.
Qed.

Lemma last_mount_entry_wins_witness :
  QMap.find
    (mountDevices
       ([ {| mnt_fsname := "/dev/mmcblk0p2"; mnt_dir := "/home" |} ]
        ++ {| mnt_fsname := "/dev/mapper/home"; mnt_dir := "/home" |}
        :: [ {| mnt_fsname := "tmpfs"; mnt_dir := "/tmp" |} ]))
    (fromLatin1 "/home")
  = Some (fromLatin1 "/dev/mapper/home").
Proof.
  apply (last_mount_entry_wins
           [ {| mnt_fsname := "/dev/mmcblk0p2"; mnt_dir := "/home" |} ]
           [ {| mnt_fsname := "tmpfs"; mnt_dir := "/tmp" |} ]
           {| mnt_fsname := "/dev/mapper/home"; mnt_dir := "/home" |}).
  intros e [<- | []]. discriminate.
Defined.

(** ** diskUsageModel: what it depends on *)

Lemma eligible_determined (devices devices' : QMap.t) :
  QMap.find devices (QS "/") = QMap.find devices' (QS "/") ->
  QMap.find devices (QS "/home") = QMap.find devices' (QS "/home") ->
  eligible devices (QS "/home") -> eligible devices' (QS "/home").
Proof.
  unfold eligible, QMap.contains, QMap.value. intros -> ->. tauto.
Qed.

(** The working path list reads the device map at the root and at [/home]
    only. *)
Lemma workingPaths_determined (mtab mtab' : list mntent) :
  QMap.find (mountDevices mtab) (QS "/")
  = QMap.find (mountDevices mtab') (QS "/") ->
  QMap.find (mountDevices mtab) (QS "/home")
  = QMap.find (mountDevices mtab') (QS "/home") ->
  workingPaths mtab = workingPaths mtab'.
Proof.
  intros R H.
  destruct (workingPaths_cases mtab) as [[W N] | [W E]],
           (workingPaths_cases mtab') as [[W' N'] | [W' E']];
    rewrite W, W'; try reflexivity; exfalso.
  - apply N. apply (eligible_determined _ _ (eq_sym R) (eq_sym H) E').
  - apply N'. apply (eligible_determined _ _ R H E).
Qed.

Lemma diskUsageModel_determined (m_sysinfo : QStorageInfo)
  (mtab mtab' : list mntent) :
  workingPaths mtab = workingPaths mtab' ->
  diskUsageModel m_sysinfo mtab = diskUsageModel m_sysinfo mtab'.
Proof. intros W. unfold diskUsageModel. rewrite W. reflexivity. Qed.

Lemma readMounts_filter (mtab : list mntent) (devices devices' : QMap.t)
  (keep : mntent -> bool) (k : QString) :
  (forall e, In e mtab -> fromLatin1 (mnt_dir e) = k -> keep e = true) ->
  QMap.find devices k = QMap.find devices' k ->
  QMap.find (readMounts mtab devices) k
  = QMap.find (readMounts (filter keep mtab) devices') k.
Proof.
  revert devices devices'; induction mtab as [|e mtab IH];
    intros devices devices' K Same; simpl.
  - exact Same.
  - assert (K' : forall e', In e' mtab -> fromLatin1 (mnt_dir e') = k ->
                            keep e' = true)
      by (intros e' I; apply K; right; exact I).
    destruct (list_eq_dec N.eq_dec k (fromLatin1 (mnt_dir e))) as [-> | N].
    + rewrite (K e (or_introl eq_refl) eq_refl). simpl.
      apply IH; [exact K' | ]. rewrite !QMap_find_insert_eq. reflexivity.
    + destruct (keep e); simpl.
      * apply IH; [exact K' | ].
        rewrite !QMap_find_insert_ne by exact N. exact Same.
      * apply IH; [exact K' | ].
        rewrite QMap_find_insert_ne by exact N. exact Same.
Qed.

Lemma rootOrHome_spec (e : mntent) (k : QString) :
  In k [QS "/"; QS "/home"] -> fromLatin1 (mnt_dir e) = k ->
  rootOrHome e = true.
Proof.
  unfold rootOrHome. intros [<- | [<- | []]] E; apply fromLatin1_inj in E;
    rewrite E; reflexivity.
Qed.

(** X14. The model depends on the entries of the mount table for the root
    and for [/home] only: all other mounts can be left out. *)
Theorem other_mounts_irrelevant (m_sysinfo : QStorageInfo)
  (mtab : list mntent) :
  diskUsageModel m_sysinfo (filter rootOrHome mtab)
  = diskUsageModel m_sysinfo mtab.
Proof.
  symmetry. apply diskUsageModel_determined, workingPaths_determined;
    unfold mountDevices; apply readMounts_filter; try reflexivity;
    intros e _; apply rootOrHome_spec; simpl; auto.
Qed.

(** X15. The model is never empty and never has more than two rows; its
    first row is the row of the root, with the figures that
    [totalDiskSpace()] and [availableDiskSpace()] return. *)
Theorem first_row_is_root (m_sysinfo : QStorageInfo) (mtab : list mntent) :
  exists row rows,
    diskUsageModel m_sysinfo mtab = row :: rows /\
    path row = QS "/" /\
    total row = AboutSettings.totalDiskSpace m_sysinfo /\
    available row = AboutSettings.availableDiskSpace m_sysinfo /\
    (length rows <= 1)%nat.
Proof.
  unfold diskUsageModel.
  destruct (workingPaths_cases mtab) as [[W _] | [W _]]; rewrite W;
    cbn [map]; eexists; eexists; (split; [reflexivity | ]);
    repeat split; simpl; lia.
Qed.

Lemma readMounts_member (mtab : list mntent) (devices : QMap.t) (e : mntent) :
  NoDup (map mnt_dir mtab) -> In e mtab ->
  QMap.find (readMounts mtab devices) (fromLatin1 (mnt_dir e))
  = Some (fromLatin1 (mnt_fsname e)).
Proof.
  intros N I. apply in_split in I as (l1 & l2 & ->).
  rewrite readMounts_app. cbn [readMounts].
  rewrite readMounts_other; [apply QMap_find_insert_eq | ].
  intros e' I' E. apply fromLatin1_inj in E.
  rewrite map_app in N. simpl in N. apply NoDup_remove_2 in N.
  apply N, in_or_app. right. rewrite <- E. apply in_map, I'.
Qed.

Lemma mountDevices_Permutation (mtab mtab' : list mntent) (k : QString) :
  Permutation mtab mtab' -> NoDup (map mnt_dir mtab) ->
  QMap.find (mountDevices mtab) k = QMap.find (mountDevices mtab') k.
Proof.
  intros P N.
  assert (N' : NoDup (map mnt_dir mtab')).
  { apply (Permutation_NoDup (Permutation_map mnt_dir P) N). }
  unfold mountDevices.
  destruct (in_dec (list_eq_dec N.eq_dec) k (mountpoints mtab)) as [I | I].
  - unfold mountpoints in I. apply in_map_iff in I as (e & <- & I).
    rewrite !readMounts_member; auto.
    apply (Permutation_in _ P I).
  - rewrite !readMounts_other; [reflexivity | | ].
    + intros e Ie E. apply I. unfold mountpoints. rewrite <- E.
      apply (in_map (fun entry => fromLatin1 (mnt_dir entry))).
      apply (Permutation_in _ (Permutation_sym P) Ie).
    + intros e Ie E. apply I. unfold mountpoints. rewrite <- E.
      apply (in_map (fun entry => fromLatin1 (mnt_dir entry))), Ie.
Qed.

(** X16. When every mountpoint has one entry in the mount table, the order
    of the entries does not matter for the model. *)
Theorem mount_order_irrelevant (m_sysinfo : QStorageInfo)
  (mtab mtab' : list mntent) :
  Permutation mtab mtab' -> NoDup (map mnt_dir mtab) ->
  diskUsageModel m_sysinfo mtab = diskUsageModel m_sysinfo mtab'.
Proof.
  intros P N.
  apply diskUsageModel_determined, workingPaths_determined;
    apply mountDevices_Permutation; assumption.
Qed.

Lemma mount_order_irrelevant_witness :
  diskUsageModel storage8G rootAndHome
  = diskUsageModel storage8G
      [ {| mnt_fsname := "/dev/mmcblk0p2"; mnt_dir := "/home" |};
        {| mnt_fsname := "/dev/mmcblk0p1"; mnt_dir := "/" |} ].
Proof.
  apply (mount_order_irrelevant storage8G rootAndHome).
  - apply perm_swap.
  - repeat constructor; simpl; intuition discriminate.
Defined.

(** ** parseReleaseFile: the quoting error *)

(** X17. A line is discarded as a quoting error exactly when it is a key of
    the pattern, [=] and a rest that after trimming starts with a quote and
    ends with another character. *)
Theorem quoting_error_iff (line : QString) :
  parseLine line = Ok QuotingError <->
  exists key raw q body d,
    line = key ++ ch "=" :: raw /\ wellFormedKey key = true /\
    QString.trimmed raw = q :: body ++ [d] /\ isQuote q = true /\ d <> q.
Proof.
  split.
  - intros P.
    assert (C : QString.startsWith line (ch "#") = false).
    { destruct (QString.startsWith line (ch "#")) eqn:C; [ | reflexivity].
      rewrite parseLine_comment in P by exact C. discriminate P. }
    assert (K : wellFormedKey (QString.section line (ch "=") 0 0) = true).
    { rewrite <- identifierPattern_wellFormed.
      destruct (identifierSyntax (QString.section line (ch "=") 0 0)) eqn:K;
        [reflexivity | ].
      rewrite parseLine_invalid in P by assumption. discriminate P. }
    destruct (first_sep (ch "=") line) as [N | (key & raw & -> & N)].
    + rewrite section_key_bare in K by exact N.
      rewrite parseLine_bare_key in P by exact K. discriminate P.
    + rewrite section_key in K by exact N.
      exists key, raw.
      destruct (QString.trimmed raw) as [|q s] eqn:T.
      { rewrite parseLine_empty_value in P by assumption. discriminate P. }
      destruct (isQuote q) eqn:Q.
      2: { rewrite (parseLine_unquoted key raw q s) in P by assumption.
           discriminate P. }
      destruct (rev s) as [|d r] eqn:R;
        apply (f_equal (@rev _)) in R; rewrite rev_involutive in R;
        simpl in R; subst s.
      { rewrite (parseLine_lone_quote key raw q) in P by assumption.
        discriminate P. }
      destruct (N.eq_dec d q) as [-> | D].
      { rewrite (parseLine_quoted key raw q (rev r)) in P by assumption.
        discriminate P. }
      exists q, (rev r), d. auto.
  - intros (key & raw & q & body & d & -> & W & T & Q & D).
    apply (parseLine_quoting_error key raw q d body [] QMap.empty W T Q D).
Qed.
